(** * PyWebIO, Flask backend: the session-bridging layer

    A shallow embedding of [pywebio/platform/flask.py]: the process-wide
    session registry [_webio_sessions], the recency tracker
    [_webio_expire], the expiry sweep, the CORS negotiator and the
    per-request dispatcher [_webio_view], followed by the properties of
    the specification that concern them.

    Conventions of the embedding.
    - Python's module globals are the fields of one record, [World], that
      every operation threads explicitly; an exception leaves the globals
      as they were at the raise, so a computation returns an outcome
      together with the world.
    - [time.time()] reads a clock kept in the world.  Seconds are rational
      numbers.  The clock moves when the worker sleeps and between
      requests; the statements of one request run at one instant.
    - Session objects live outside this file ([pywebio.session]).  A
      session is known by its handle (the identity of the Python object);
      every call made on a session is appended to a log, and what
      [get_task_commands()] and [closed()] answer is given by two oracles
      that see the handle, the time and the log so far.
    - [request.json] either gives the decoded body or raises; which of the
      two is part of the request.
    - Left out, as no property below depends on them: the asyncio event loop
      ([_event_loop], [run_event_loop]), the choice of the session class
      ([set_session_implement_for_target]) and [start_server]. *)

From Stdlib Require Import Ascii QArith Lqa Sorted.
From stdpp Require Import gmap strings list fin_maps.
From Equations Require Import Equations.

Set Warnings "-register-all".
Local Open Scope string_scope.
Local Open Scope list_scope.

(** ** Values exchanged with the HTTP layer *)

Inductive JSON :=
| JNull
| JBool (b : bool)
| JNum (n : Z)
| JStr (s : string)
| JArr (items : list JSON)
| JObj (fields : list (string * JSON)).

(** A value of the [headers] dict: a string, or the integer of
    [Access-Control-Max-Age]. *)
Inductive HeaderValue :=
| HStr (s : string)
| HInt (n : Z).

(** The exceptions met: the two the module's own statements raise, and the
    HTTP error with which Flask refuses a body. *)
Inductive Exn :=
| KeyError (key : string)
| TypeError (msg : string)
| HTTPException (code : Z).

(** [request_json] is what evaluating [request.json] gives: the decoded
    body, or the exception Flask raises on a body it cannot decode. *)
Record Request := mkRequest {
  request_method : string;
  request_headers : gmap string string;
  request_args : gmap string string;
  request_json : Exn + JSON
}.

Inductive Body :=
| Text (s : string)
| Json (j : JSON).

(** [resp_headers] holds the headers the view sets itself; the ones Flask
    adds on its own (Content-Type, Content-Length) are not modelled. *)
Record Response := mkResponse {
  body : Body;
  status : Z;
  resp_headers : gmap string HeaderValue
}.

Definition jsonify (j : JSON) : Response := mkResponse (Json j) 200 ∅.

(** [for k, v in headers.items(): response.headers[k] = v] *)
Definition set_headers (hs : gmap string HeaderValue) (r : Response) : Response :=
  mkResponse (body r) (status r) (hs ∪ resp_headers r).

(** Truth value of [d.get(key)]: a missing key gives [None], an empty
    string is false as well. *)
Definition truthy (o : option string) : bool :=
  match o with
  | Some s => bool_decide (s ≠ "")
  | None => false
  end.

(** ** The recency tracker

    [_webio_expire] is an [LRUDict], a subclass of [OrderedDict]: the items
    in insertion order, least recently updated first.  The list keeps one
    item per key ([lru_wf]). *)

Abbreviation LRUDict := (list (string * Q)).

Definition lru_wf (d : LRUDict) : Prop := NoDup d.*1.

Definition lru_remove (k : string) (d : LRUDict) : LRUDict :=
  filter (λ kv, kv.1 ≠ k) d.

Fixpoint lru_get (k : string) (d : LRUDict) : option Q :=
  match d with
  | [] => None
  | (k', v) :: rest => if decide (k' = k) then Some v else lru_get k rest
  end.

(** Modelled from the spec: [LRUDict.__setitem__] (class [LRUDict] of
    [pywebio/utils.py], absent here), the "move-to-end ordered map": a touched
    record "is removed and reinserted at the most-recently-active end". *)
Definition lru_setitem (k : string) (v : Q) (d : LRUDict) : LRUDict :=
  lru_remove k d ++ [(k, v)].

(** [OrderedDict.move_to_end(key, last)] *)
Definition move_to_end (k : string) (last : bool) (d : LRUDict) : Exn + LRUDict :=
  match lru_get k d with
  | None => inl (KeyError k)
  | Some v => inr (if last then lru_remove k d ++ [(k, v)] else (k, v) :: lru_remove k d)
  end.

(** [OrderedDict.popitem(last=False)] *)
Definition popitem_first (d : LRUDict) : Exn + ((string * Q) * LRUDict) :=
  match d with
  | [] => inl (KeyError "dictionary is empty")
  | kv :: rest => inr (kv, rest)
  end.

(** Truth value of the dict: is it non-empty? *)
Definition lru_bool (d : LRUDict) : bool :=
  match d with
  | [] => false
  | _ :: _ => true
  end.

(** [del d[k]] on the tracker *)
Definition lru_delitem (k : string) (d : LRUDict) : Exn + LRUDict :=
  match lru_get k d with
  | None => inl (KeyError k)
  | Some _ => inr (lru_remove k d)
  end.

(** [del d[k]] on a plain dict *)
Definition dict_delitem {V} (k : string) (d : gmap string V) : Exn + gmap string V :=
  match d !! k with
  | None => inl (KeyError k)
  | Some _ => inr (delete k d)
  end.

(** ** Module constants *)

Definition DEFAULT_SESSION_EXPIRE_SECONDS : Q := 60.
Definition REMOVE_EXPIRED_SESSIONS_INTERVAL : Q := 20.
Definition WAIT_MS_ON_POST : Q := 100.

(** ** The CORS negotiator *)

Definition cors_headers (origin : string) (check_origin : string → Exn + bool)
    (headers : option (gmap string HeaderValue)) : Exn + gmap string HeaderValue :=
  let headers := default ∅ headers in
  match check_origin origin with
  | inl e => inl e
  | inr true =>
      inr (<["Access-Control-Max-Age" := HInt (1440 * 60)]>
           (<["Access-Control-Expose-Headers" := HStr "webio-session-id"]>
            (<["Access-Control-Allow-Headers" := HStr "content-type, webio-session-id"]>
             (<["Access-Control-Allow-Methods" := HStr "GET, POST"]>
              (<["Access-Control-Allow-Origin" := HStr origin]> headers)))))
  | inr false => inr headers
  end.

(** ** The world: module globals, clock, and the collaborators *)

(** The identity of a session object. *)
Definition Handle := nat.

Section Flask.

Context {Target : Type}.

(** A call made on an object of [pywebio.session] with what it answered,
    or a [time.sleep]. *)
Inductive Call :=
| NewSession (h : Handle) (target : Target)
| SendClientEvent (h : Handle) (event : JSON)
| Sleep (seconds : Q)
| GetTaskCommands (h : Handle) (commands : list JSON)
| Closed (h : Handle) (answer : bool).

Record World := mkWorld {
  _webio_sessions : gmap string Handle;
  _webio_expire : LRUDict;
  _last_check_session_expire_ts : Q;
  clock : Q;
  next_handle : Handle;
  draws : nat;
  log : list Call
}.

Definition with_sessions (m : gmap string Handle) (w : World) : World :=
  mkWorld m (_webio_expire w) (_last_check_session_expire_ts w) (clock w)
          (next_handle w) (draws w) (log w).
Definition with_expire (d : LRUDict) (w : World) : World :=
  mkWorld (_webio_sessions w) d (_last_check_session_expire_ts w) (clock w)
          (next_handle w) (draws w) (log w).
Definition with_last_check (t : Q) (w : World) : World :=
  mkWorld (_webio_sessions w) (_webio_expire w) t (clock w)
          (next_handle w) (draws w) (log w).
Definition with_clock (t : Q) (w : World) : World :=
  mkWorld (_webio_sessions w) (_webio_expire w) (_last_check_session_expire_ts w) t
          (next_handle w) (draws w) (log w).
Definition with_next_handle (h : Handle) (w : World) : World :=
  mkWorld (_webio_sessions w) (_webio_expire w) (_last_check_session_expire_ts w) (clock w)
          h (draws w) (log w).
Definition with_draws (n : nat) (w : World) : World :=
  mkWorld (_webio_sessions w) (_webio_expire w) (_last_check_session_expire_ts w) (clock w)
          (next_handle w) n (log w).
Definition with_log (l : list Call) (w : World) : World :=
  mkWorld (_webio_sessions w) (_webio_expire w) (_last_check_session_expire_ts w) (clock w)
          (next_handle w) (draws w) l.

(** The module as it is when imported: [_webio_sessions = {}],
    [_webio_expire = LRUDict()], [_last_check_session_expire_ts = 0]. *)
Definition initial_world (now : Q) : World := mkWorld ∅ [] 0 now 0 0 [].

(** [pywebio.utils.random_str]: the string of the given length that the
    [n]-th draw of the process returns. *)
Variable random_str_at : nat → nat → string.
(** What [get_task_commands()] and [closed()] answer on a session, given the
    time and the calls made so far. *)
Variable session_commands : Handle → Q → list Call → list JSON.
Variable session_closed : Handle → Q → list Call → bool.
(** [fnmatch.fnmatch] of the Python library. *)
Variable fnmatch : string → string → bool.

(** ** State and exceptions *)

Definition M (A : Type) : Type := World → (Exn + A) * World.

Definition ret {A} (a : A) : M A := λ w, (inr a, w).
Definition bind {A B} (c : M A) (k : A → M B) : M B := λ w,
  match c w with
  | (inl e, w') => (inl e, w')
  | (inr a, w') => k a w'
  end.
Definition lift {A} (r : Exn + A) : M A := λ w, (r, w).

Notation "'let!' x ':=' c 'in' k" := (bind c (λ x, k))
  (at level 10, x name, c at level 100, k at level 200).
Notation "'do!' c 'in' k" := (bind c (λ _, k))
  (at level 10, c at level 100, k at level 200).

Definition time : M Q := λ w, (inr (clock w), w).

Definition sleep (seconds : Q) : M unit := λ w,
  (inr tt, with_log (log w ++ [Sleep seconds]) (with_clock (clock w + seconds) w)).

Definition random_str (n : nat) : M string := λ w,
  (inr (random_str_at (draws w) n), with_draws (S (draws w)) w).

(** [Session = get_session_implement(); Session(target)] *)
Definition Session (target : Target) : M Handle := λ w,
  let h := next_handle w in
  (inr h, with_log (log w ++ [NewSession h target]) (with_next_handle (S h) w)).

Definition send_client_event (h : Handle) (event : JSON) : M unit := λ w,
  (inr tt, with_log (log w ++ [SendClientEvent h event]) w).

Definition get_task_commands (h : Handle) : M (list JSON) := λ w,
  let commands := session_commands h (clock w) (log w) in
  (inr commands, with_log (log w ++ [GetTaskCommands h commands]) w).

Definition closed (h : Handle) : M bool := λ w,
  let answer := session_closed h (clock w) (log w) in
  (inr answer, with_log (log w ++ [Closed h answer]) w).

(** Accesses to the two global dicts and to the sweep timestamp. *)
Definition sessions_contains (sid : string) : M bool := λ w,
  (inr (bool_decide (is_Some (_webio_sessions w !! sid))), w).

Definition sessions_getitem (sid : string) : M Handle := λ w,
  match _webio_sessions w !! sid with
  | Some h => (inr h, w)
  | None => (inl (KeyError sid), w)
  end.

Definition sessions_setitem (sid : string) (h : Handle) : M unit := λ w,
  (inr tt, with_sessions (<[sid := h]> (_webio_sessions w)) w).

Definition sessions_delitem (sid : string) : M unit := λ w,
  match dict_delitem sid (_webio_sessions w) with
  | inl e => (inl e, w)
  | inr m => (inr tt, with_sessions m w)
  end.

Definition expire_setitem (sid : string) (ts : Q) : M unit := λ w,
  (inr tt, with_expire (lru_setitem sid ts (_webio_expire w)) w).

Definition expire_delitem (sid : string) : M unit := λ w,
  match lru_delitem sid (_webio_expire w) with
  | inl e => (inl e, w)
  | inr d => (inr tt, with_expire d w)
  end.

Definition get_last_check : M Q := λ w, (inr (_last_check_session_expire_ts w), w).
Definition set_last_check (t : Q) : M unit := λ w, (inr tt, with_last_check t w).

(** ** The operations of [flask.py] *)

Definition _make_response (webio_session : Handle) : M Response :=
  let! commands := get_task_commands webio_session in
  ret (jsonify (JArr commands)).

(** The [while] loop pops one item per turn, so the length of the tracker
    is its measure. *)
Equations? _remove_expired_sessions (session_expire_seconds : Q) (w : World)
  : (Exn + unit) * World by wf (length (_webio_expire w)) lt :=
_remove_expired_sessions session_expire_seconds w
    with Equations.Prop.Logic.inspect (lru_bool (_webio_expire w)) := {
  | exist _ false _ => (inr tt, w)
  | exist _ true _ with Equations.Prop.Logic.inspect (popitem_first (_webio_expire w)) := {
    | exist _ (inl e) _ => (inl e, w)
    | exist _ (inr ((sid, active_ts), rest)) Hpop =>
        if Qlt_le_dec (clock w - active_ts) session_expire_seconds then
          match move_to_end sid false (lru_setitem sid active_ts rest) with
          | inl e => (inl e, with_expire (lru_setitem sid active_ts rest) w)
          | inr d => (inr tt, with_expire d w)
          end
        else
          match dict_delitem sid (_webio_sessions w) with
          | inl e => (inl e, with_expire rest w)
          | inr m =>
              _remove_expired_sessions session_expire_seconds
                (with_sessions m (with_expire rest w))
          end } }.
Proof.
  simpl. destruct (_webio_expire w); simplify_eq/=. lia.
Qed.

Definition _remove_webio_session (sid : string) : M unit :=
  do! sessions_delitem sid in
  expire_delitem sid.

Definition close_session : JSON := JArr [JObj [("command", JStr "close_session")]].

(** Lines 119-139 of [_webio_view], reached with a session in hand. *)
Definition _webio_view_session (session_expire_seconds : Q) (request : Request)
    (webio_session_id : string) (webio_session : Handle)
    (headers : gmap string HeaderValue) : M Response :=
  do! (if decide (request_method request = "POST") then
         let! event := lift (request_json request) in
         do! send_client_event webio_session event in
         sleep (WAIT_MS_ON_POST / 1000)
       else ret tt) in
  let! now := time in
  let! last := get_last_check in
  do! (if Qlt_le_dec REMOVE_EXPIRED_SESSIONS_INTERVAL (now - last) then
         do! _remove_expired_sessions session_expire_seconds in
         let! now := time in
         set_last_check now
       else ret tt) in
  let! response := _make_response webio_session in
  let! is_closed := closed webio_session in
  do! (if is_closed then _remove_webio_session webio_session_id else ret tt) in
  ret (set_headers headers response).

Definition _webio_view (target : Target) (session_expire_seconds : Q)
    (check_origin : string → Exn + bool) (request : Request) : M Response :=
  if decide (request_method request = "OPTIONS") then
    let! headers :=
      lift (cors_headers (default "" (request_headers request !! "Origin")) check_origin None) in
    ret (mkResponse (Text "") 204 headers)
  else
    let headers := ∅ in
    let! headers :=
      (if truthy (request_headers request !! "Origin") then
         lift (cors_headers (default "" (request_headers request !! "Origin"))
                            check_origin (Some headers))
       else ret headers) in
    if truthy (request_args request !! "test") then
      ret (mkResponse (Text "ok") 200 headers)
    else if negb (truthy (request_headers request !! "webio-session-id")) then
      let! webio_session_id := random_str 24 in
      let headers := <["webio-session-id" := HStr webio_session_id]> headers in
      let! webio_session := Session target in
      do! sessions_setitem webio_session_id webio_session in
      let! now := time in
      do! expire_setitem webio_session_id now in
      _webio_view_session session_expire_seconds request
        webio_session_id webio_session headers
    else
      let sid := default "" (request_headers request !! "webio-session-id") in
      let! known := sessions_contains sid in
      if negb known then
        ret (jsonify close_session)
      else
        let webio_session_id := sid in
        let! webio_session := sessions_getitem webio_session_id in
        _webio_view_session session_expire_seconds request
          webio_session_id webio_session headers.

(** The predicate [webio_view] builds when [check_origin] is [None]:
    [any(fnmatch.fnmatch(origin, patten) for patten in allowed_origins)].
    Iterating over [None] raises. *)
Definition default_check_origin (allowed_origins : option (list string))
    : string → Exn + bool :=
  λ origin,
    match allowed_origins with
    | None => inl (TypeError "'NoneType' object is not iterable")
    | Some pattens => inr (existsb (λ patten, fnmatch origin patten) pattens)
    end.

(** [session_expire_seconds], [allowed_origins] and [check_origin] are the
    keyword arguments; [None] stands for one left at its default. *)
Definition webio_view (target : Target) (session_expire_seconds : option Q)
    (allowed_origins : option (list string))
    (check_origin : option (string → Exn + bool)) : Request → M Response :=
  let session_expire_seconds :=
    default DEFAULT_SESSION_EXPIRE_SECONDS session_expire_seconds in
  let check_origin :=
    match check_origin with
    | None => default_check_origin allowed_origins
    | Some f => f
    end in
  _webio_view target session_expire_seconds check_origin.

(** Requests are served one after the other; each arrives at its own time. *)
Definition serve (view : Request → M Response) (arrival : Q) (request : Request)
    (w : World) : (Exn + Response) * World :=
  view request (with_clock arrival w).

Fixpoint serve_all (view : Request → M Response) (requests : list (Q * Request))
    (w : World) : World :=
  match requests with
  | [] => w
  | (arrival, request) :: rest => serve_all view rest (serve view arrival request w).2
  end.

End Flask.

(** * Vocabulary of the specification *)

(** Idle duration at or above the threshold: the test of the sweep, negated. *)
Definition is_expired (now session_expire_seconds : Q) (record : string * Q) : bool :=
  if Qlt_le_dec (now - record.2) session_expire_seconds then false else true.

(** The records the sweep pops, and the ones it leaves. *)
Fixpoint expired_prefix (now session_expire_seconds : Q) (d : LRUDict) : LRUDict :=
  match d with
  | [] => []
  | record :: rest =>
      if is_expired now session_expire_seconds record
      then record :: expired_prefix now session_expire_seconds rest
      else []
  end.

Fixpoint fresh_suffix (now session_expire_seconds : Q) (d : LRUDict) : LRUDict :=
  match d with
  | [] => []
  | record :: rest =>
      if is_expired now session_expire_seconds record
      then fresh_suffix now session_expire_seconds rest
      else d
  end.

Definition del_all (sids : list string) (m : gmap string Handle) : gmap string Handle :=
  foldl (λ m sid, delete sid m) m sids.

(** Recency order: last-active timestamps never decrease from the
    least-recently-active end to the most-recently-active one. *)
Definition recency_ordered (d : LRUDict) : Prop :=
  StronglySorted (λ a b, (a.2 <= b.2)%Q) d.

(** The pairing of Registry and Recency Tracker: one record per token, and a
    record exactly for the tokens that have a handle. *)
Definition paired_dicts (sessions : gmap string Handle) (expire : LRUDict) : Prop :=
  lru_wf expire ∧ ∀ sid, is_Some (sessions !! sid) ↔ sid ∈ expire.*1.

Definition paired {Target} (w : World (Target := Target)) : Prop :=
  paired_dicts (_webio_sessions w) (_webio_expire w).

(** The origin predicate returns (does not raise) where the request makes
    the view call it. *)
Definition origin_checked (check_origin : string → Exn + bool) (request : Request) : Prop :=
  truthy (request_headers request !! "Origin") = true →
  ∃ b, check_origin (default "" (request_headers request !! "Origin")) = inr b.

(** What a request sends to the session before the output is collected. *)
Definition pushed {Target} (request : Request) (h : Handle) : list (Call (Target := Target)) :=
  if decide (request_method request = "POST") then
    match request_json request with
    | inr event => [SendClientEvent h event; Sleep (WAIT_MS_ON_POST / 1000)]
    | inl _ => []
    end
  else [].

(** The request gets past line 120: it is not a POST, or its body decodes. *)
Definition body_decodes (request : Request) : Prop :=
  request_method request = "POST" → ∃ event, request_json request = inr event.

(** The time that line 126 reads: the time of the request, after the delay
    of line 121 on a POST. *)
Definition sweep_time {Target} (request : Request) (w : World (Target := Target)) : Q :=
  if decide (request_method request = "POST")
  then (clock w + WAIT_MS_ON_POST / 1000)%Q else clock w.

(** More than the interval has passed since the last sweep (line 126). *)
Definition sweep_due {Target} (request : Request) (w : World (Target := Target)) : Prop :=
  (REMOVE_EXPIRED_SESSIONS_INTERVAL <
     sweep_time request w - _last_check_session_expire_ts w)%Q.

(** The world in which a new session has just been registered under the
    token of the next draw. *)
Definition created {Target} (random_str_at : nat → nat → string) (target : Target)
    (w : World (Target := Target)) : World :=
  let sid := random_str_at (draws w) 24 in
  let h := next_handle w in
  with_expire (lru_setitem sid (clock w) (_webio_expire w))
    (with_sessions (<[sid := h]> (_webio_sessions w))
       (with_log (log w ++ [NewSession h target])
          (with_next_handle (S h) (with_draws (S (draws w)) w)))).

(** The states of the dispatcher, told apart by the tests of [_webio_view]
    in the order it makes them. *)
Inductive DispatchState :=
| PREFLIGHT
| BARE_PROBE
| NEW_SESSION
| STALE_TOKEN
| RESUME_SESSION.

Definition session_token (request : Request) : string :=
  default "" (request_headers request !! "webio-session-id").

Definition dispatch_state {Target} (request : Request) (w : World (Target := Target))
    : DispatchState :=
  if decide (request_method request = "OPTIONS") then PREFLIGHT
  else if truthy (request_args request !! "test") then BARE_PROBE
  else if negb (truthy (request_headers request !! "webio-session-id")) then NEW_SESSION
  else if bool_decide (is_Some (_webio_sessions w !! session_token request))
       then RESUME_SESSION
       else STALE_TOKEN.

(** The [headers] dict of a request that is not a preflight, after line 100. *)
Definition negotiated (check_origin : string → Exn + bool) (request : Request)
    : Exn + gmap string HeaderValue :=
  if truthy (request_headers request !! "Origin") then
    cors_headers (default "" (request_headers request !! "Origin")) check_origin (Some ∅)
  else inr ∅.

(** A header of what was returned, if anything was. *)
Definition returned_header {A} (get : A → gmap string HeaderValue) (name : string)
    (outcome : Exn + A) : option HeaderValue :=
  match outcome with
  | inr a => get a !! name
  | inl _ => None
  end.

(** The five headers of a cross-origin grant (lines 74-78). *)
Definition cors_grant (origin : string) : gmap string HeaderValue :=
  list_to_map
    [("Access-Control-Allow-Origin", HStr origin);
     ("Access-Control-Allow-Methods", HStr "GET, POST");
     ("Access-Control-Allow-Headers", HStr "content-type, webio-session-id");
     ("Access-Control-Expose-Headers", HStr "webio-session-id");
     ("Access-Control-Max-Age", HInt (1440 * 60))].

(** The value of the [Origin] header, [''] when there is none. *)
Definition origin_of (request : Request) : string :=
  default "" (request_headers request !! "Origin").

(** The same request with its [Origin] header taken away. *)
Definition without_origin (request : Request) : Request :=
  mkRequest (request_method request) (delete "Origin" (request_headers request))
            (request_args request) (request_json request).

(** Every registered handle has been allocated, and no two tokens share a
    session object. *)
Definition handles_distinct {Target} (w : World (Target := Target)) : Prop :=
  (∀ sid h, _webio_sessions w !! sid = Some h → h < next_handle w) ∧
  (∀ sid1 sid2 h, _webio_sessions w !! sid1 = Some h →
                  _webio_sessions w !! sid2 = Some h → sid1 = sid2).

(** * A deployment to run the module on

    Collaborators for the scenarios: a token generator, sessions that
    produce no command and close at a set time, a pattern matcher, and the
    view built on them for the task ["task"] with the default threshold of
    60 seconds. *)

(** The token of the [n]-th draw: [len] copies of the [n]-th capital. *)
Definition demo_random_str_at (n len : nat) : string :=
  String.string_of_list_ascii (replicate len (Ascii.ascii_of_nat (65 + n))).

Definition T1 : string := demo_random_str_at 0 24.

Definition no_commands : Handle → Q → list (Call (Target := string)) → list JSON :=
  λ _ _ _, [].

(** A session whose task ends at time [t]: [closed()] is true from then on. *)
Definition closed_from (t : Q) : Handle → Q → list (Call (Target := string)) → bool :=
  λ _ now _, if Qlt_le_dec now t then false else true.

(** A session that stays open. *)
Definition never_closed : Handle → Q → list (Call (Target := string)) → bool :=
  λ _ _ _, false.

(** Stands for [fnmatch.fnmatch] on patterns made of literal characters,
    [*] (any substring) and [?] (any character). *)
Fixpoint wildcard (pattern : string) : string → bool :=
  match pattern with
  | EmptyString => λ name, bool_decide (name = "")
  | String c rest =>
      if bool_decide (c = "*"%char) then
        fix star (name : string) : bool :=
          wildcard rest name ||
          match name with
          | EmptyString => false
          | String _ name' => star name'
          end
      else
        λ name,
          match name with
          | EmptyString => false
          | String c' name' =>
              (bool_decide (c = "?"%char) || bool_decide (c = c')) && wildcard rest name'
          end
  end.

Definition demo_fnmatch (name pattern : string) : bool := wildcard pattern name.

Definition demo_request (method : string) (origin token : option string) : Request :=
  mkRequest method
    (from_option (λ o, {["Origin" := o]}) ∅ origin ∪
     from_option (λ t, {["webio-session-id" := t]}) ∅ token)
    ∅ (inr JNull).

Definition demo_view (session_closed : Handle → Q → list (Call (Target := string)) → bool)
    (check_origin : string → Exn + bool) : Request → M Response :=
  _webio_view demo_random_str_at no_commands session_closed
    "task" DEFAULT_SESSION_EXPIRE_SECONDS check_origin.

Definition allow_all : string → Exn + bool := λ _, inr true.

(** The module just imported, at time 0. *)
Definition at_import : World (Target := string) := initial_world 0.

Definition T2 : string := demo_random_str_at 1 24.

(** Two sessions, created at t=0 and t=50, seen at t=70. *)
Definition two_sessions_at_70 : World (Target := string) :=
  with_clock 70
    (serve_all (demo_view never_closed allow_all)
       [(0%Q, demo_request "GET" None None); (50%Q, demo_request "GET" None None)]
       at_import).

Definition click : JSON := JObj [("event", JStr "click")].

Definition first_post : Request := mkRequest "POST" ∅ ∅ (inr click).

Definition example_origins : string → Exn + bool :=
  default_check_origin demo_fnmatch (Some ["https://*.example.com"]).

(** More of the deployment: the requests and worlds of the further
    properties. *)

Definition resume_T1 : Request := demo_request "GET" None (Some T1).

Definition preflight : Request :=
  demo_request "OPTIONS" (Some "https://a.example.com") None.

Definition probe : Request := mkRequest "GET" ∅ {["test" := "1"]} (inr JNull).

Definition from_evil : Request := demo_request "GET" (Some "https://evil.com") None.

Definition approve_example (origin : string) : bool :=
  demo_fnmatch origin "https://*.example.com".

(** A session created at t=0 whose task ends at t=90, seen at t=100. *)
Definition one_session_at_100 : World (Target := string) :=
  with_clock 100
    (serve_all (demo_view (closed_from 90) allow_all)
       [(0%Q, demo_request "GET" None None)] at_import).

(** A generator that returns the same token at every draw, and the world
    after one session was created with it. *)
Definition always_T1 (n len : nat) : string := demo_random_str_at 0 len.

Definition repeating_view : Request → M Response :=
  _webio_view always_T1 no_commands never_closed
    "task" DEFAULT_SESSION_EXPIRE_SECONDS allow_all.

Definition token_taken : World (Target := string) :=
  serve_all repeating_view [(0%Q, demo_request "GET" None None)] at_import.


(** The view as [webio_view(target)] builds it, every keyword argument left
    at its default. *)
Definition default_view : Request → M Response :=
  webio_view demo_random_str_at no_commands never_closed demo_fnmatch
    "task" None None None.


(** * Properties *)

(** ** The ordered dict *)

Lemma lru_remove_notin k (d : LRUDict) : k ∉ d.*1 → lru_remove k d = d.
Proof.
  unfold lru_remove. induction d as [|[k' v] d IH]; [done|].
  rewrite fmap_cons. intros [Hne Hk]%not_elem_of_cons.
  rewrite filter_cons_True by (simpl in *; congruence).
  by rewrite IH.
Qed.

Lemma lru_remove_keys k (d : LRUDict) k' :
  k' ∈ (lru_remove k d).*1 ↔ k' ∈ d.*1 ∧ k' ≠ k.
Proof.
  unfold lru_remove. rewrite !list_elem_of_fmap. split.
  - intros ([a b] & -> & Hin). apply list_elem_of_filter in Hin as [Hne Hin].
    split; [|done]. by exists (a, b).
  - intros [([a b] & -> & Hin) Hne]. exists (a, b). split; [done|].
    by apply list_elem_of_filter.
Qed.

Lemma lru_remove_wf k (d : LRUDict) : lru_wf d → lru_wf (lru_remove k d).
Proof.
  unfold lru_wf, lru_remove. induction d as [|[k' v] d IH]; [done|].
  rewrite fmap_cons. intros [Hk Hd]%NoDup_cons. destruct (decide (k' = k)) as [->|Hne].
  - rewrite filter_cons_False by (simpl; tauto). auto.
  - rewrite filter_cons_True by done. rewrite fmap_cons. apply NoDup_cons.
    split; [|auto]. intros Hin. apply (lru_remove_keys k d k') in Hin. tauto.
Qed.

Lemma lru_get_None k (d : LRUDict) : lru_get k d = None ↔ k ∉ d.*1.
Proof.
  induction d as [|[k' v] d IH]; simpl.
  - split; [intros _; apply not_elem_of_nil|done].
  - rewrite not_elem_of_cons. destruct (decide (k' = k)) as [->|Hne].
    + split; [done|tauto].
    + rewrite IH. split; [by split|tauto].
Qed.

Lemma lru_get_Some k v (d : LRUDict) : lru_wf d → lru_get k d = Some v ↔ (k, v) ∈ d.
Proof.
  unfold lru_wf. induction d as [|[k' v'] d IH]; simpl.
  - intros _. split; [done|]. intros H. by apply not_elem_of_nil in H.
  - intros [Hk Hd]%NoDup_cons. rewrite elem_of_cons.
    destruct (decide (k' = k)) as [->|Hne].
    + split; [intros [= ->]; by left|].
      intros [[= ->]|Hin]; [done|]. exfalso. apply Hk.
      apply list_elem_of_fmap. by exists (k, v).
    + rewrite IH by done. split; [by right|]. intros [[= -> ->]|?]; [done|done].
Qed.

Lemma lru_get_app_notin k (d1 d2 : LRUDict) :
  k ∉ d1.*1 → lru_get k (d1 ++ d2) = lru_get k d2.
Proof.
  induction d1 as [|[k' v] d1 IH]; simpl; [done|].
  intros [Hne Hk]%not_elem_of_cons. rewrite decide_False by done. auto.
Qed.

Lemma lru_remove_self_notin k (d : LRUDict) : k ∉ (lru_remove k d).*1.
Proof. intros H. apply lru_remove_keys in H. tauto. Qed.

Lemma lru_get_setitem k v (d : LRUDict) : lru_get k (lru_setitem k v d) = Some v.
Proof.
  unfold lru_setitem. rewrite lru_get_app_notin by apply lru_remove_self_notin.
  simpl. by rewrite decide_True.
Qed.

Lemma lru_remove_app k (d1 d2 : LRUDict) :
  lru_remove k (d1 ++ d2) = lru_remove k d1 ++ lru_remove k d2.
Proof. unfold lru_remove. apply filter_app. Qed.

Lemma lru_remove_idemp k (d : LRUDict) : lru_remove k (lru_remove k d) = lru_remove k d.
Proof. apply lru_remove_notin, lru_remove_self_notin. Qed.

(** [d[k] = v; d.move_to_end(k, last=False)] never raises and puts the item
    at the front. *)
Lemma reinsert_front k v (d : LRUDict) :
  move_to_end k false (lru_setitem k v d) = inr ((k, v) :: lru_remove k d).
Proof.
  unfold move_to_end. rewrite lru_get_setitem. unfold lru_setitem.
  rewrite lru_remove_app, lru_remove_idemp. simpl.
  unfold lru_remove at 2. rewrite filter_cons_False by (simpl; tauto).
  rewrite filter_nil. by rewrite app_nil_r.
Qed.

Lemma lru_setitem_wf k v (d : LRUDict) : lru_wf d → lru_wf (lru_setitem k v d).
Proof.
  intros Hd. unfold lru_wf, lru_setitem. rewrite fmap_app. simpl.
  apply NoDup_app. split; [by apply lru_remove_wf|]. split.
  - intros k' Hk' [->|[]%not_elem_of_nil]%elem_of_cons.
    by apply lru_remove_self_notin in Hk'.
  - apply NoDup_singleton.
Qed.

Lemma lru_setitem_keys k v (d : LRUDict) k' :
  k' ∈ (lru_setitem k v d).*1 ↔ k' = k ∨ k' ∈ d.*1.
Proof.
  unfold lru_setitem. rewrite fmap_app, elem_of_app, lru_remove_keys. simpl.
  rewrite list_elem_of_singleton. destruct (decide (k' = k)); tauto.
Qed.

Lemma del_all_lookup (sids : list string) (m : gmap string Handle) sid :
  del_all sids m !! sid = if decide (sid ∈ sids) then None else m !! sid.
Proof.
  unfold del_all. revert m. induction sids as [|k sids IH]; intros m; simpl.
  - destruct (decide (sid ∈ [])) as [Hin|_]; [by apply not_elem_of_nil in Hin|done].
  - rewrite IH.
    destruct (decide (sid ∈ sids)) as [Hin|Hnin],
             (decide (sid ∈ k :: sids)) as [Hin'|Hnin']; try done.
    + exfalso. apply Hnin'. by right.
    + apply elem_of_cons in Hin' as [->|?]; [apply lookup_delete_eq|done].
    + rewrite lookup_delete_ne; [done|]. intros ->. apply Hnin'. left.
Qed.

Lemma expired_fresh_split now s (d : LRUDict) :
  d = expired_prefix now s d ++ fresh_suffix now s d.
Proof.
  induction d as [|kv d IH]; simpl; [done|].
  destruct (is_expired now s kv); simpl; [by f_equal|done].
Qed.

Lemma expired_prefix_all now s (d : LRUDict) :
  Forall (λ kv, is_expired now s kv = true) (expired_prefix now s d).
Proof.
  induction d as [|kv d IH]; simpl; [constructor|].
  destruct (is_expired now s kv) eqn:E; by constructor.
Qed.

Lemma fresh_suffix_head now s (d : LRUDict) kv rest :
  fresh_suffix now s d = kv :: rest → is_expired now s kv = false.
Proof.
  induction d as [|kv' d IH]; simpl; [done|].
  destruct (is_expired now s kv') eqn:E; [done|]. by intros [= -> ->].
Qed.

Lemma is_expired_true now s kv : is_expired now s kv = true ↔ (s <= now - kv.2)%Q.
Proof.
  unfold is_expired. destruct (Qlt_le_dec (now - kv.2) s) as [Hlt|Hle].
  - split; [done|]. intros Hle. exfalso. lra.
  - done.
Qed.

Lemma is_expired_false now s kv : is_expired now s kv = false ↔ (now - kv.2 < s)%Q.
Proof.
  unfold is_expired. destruct (Qlt_le_dec (now - kv.2) s) as [Hlt|Hle].
  - done.
  - split; [done|]. intros Hlt. exfalso. lra.
Qed.

(** In recency order nothing behind a fresh record is expired. *)
Lemma fresh_suffix_all now s (d : LRUDict) :
  recency_ordered d → Forall (λ kv, is_expired now s kv = false) (fresh_suffix now s d).
Proof.
  unfold recency_ordered. induction 1 as [|kv d Hd IH Hall]; simpl; [constructor|].
  destruct (is_expired now s kv) eqn:E; [done|].
  constructor; [done|]. apply is_expired_false in E.
  eapply Forall_impl; [exact Hall|]. intros kv' Hle. apply is_expired_false. simpl in Hle. lra.
Qed.

(** ** The CORS negotiator *)

(** C7. For every origin and every predicate: when the predicate approves the
    origin, the negotiator called without a header set returns exactly five
    headers: [Access-Control-Allow-Origin] is the origin, the allowed methods
    are GET and POST, the allowed headers are content-type and the
    session-token header, the session-token header is exposed, and the
    preflight answer may be cached for 24 hours; called with a header set it
    adds these five to it.  When the predicate rejects the origin no header
    is added: the header set comes back unchanged (empty if none was
    given). *)
Theorem cors_headers_exact (origin : string) (predicate : string → bool)
    (headers : gmap string HeaderValue) :
  let granted : gmap string HeaderValue :=
    list_to_map
      [("Access-Control-Allow-Origin", HStr origin);
       ("Access-Control-Allow-Methods", HStr "GET, POST");
       ("Access-Control-Allow-Headers", HStr "content-type, webio-session-id");
       ("Access-Control-Expose-Headers", HStr "webio-session-id");
       ("Access-Control-Max-Age", HInt (24 * 60 * 60))] in
  cors_headers origin (λ o, inr (predicate o)) None =
    inr (if predicate origin then granted else ∅) ∧
  cors_headers origin (λ o, inr (predicate o)) (Some headers) =
    inr (if predicate origin then granted ∪ headers else headers) ∧
  size granted = 5.
Proof.
  unfold cors_headers. simpl. destruct (predicate origin).
  - split; [|split].
    + by f_equal.
    + f_equal. rewrite <- (left_id_L ∅ (∪) headers) at 1.
      by rewrite !insert_union_l.
    + by vm_compute.
  - split; [done|]. split; [done|]. by vm_compute.
Qed.

Lemma fresh_record_stays_last now s (d : LRUDict) r :
  is_expired now s r = false →
  expired_prefix now s (d ++ [r]) = expired_prefix now s d ∧
  fresh_suffix now s (d ++ [r]) = fresh_suffix now s d ++ [r].
Proof.
  intros Hr. induction d as [|kv d [IH1 IH2]]; simpl.
  - by rewrite Hr.
  - destruct (is_expired now s kv); [|done]. by rewrite IH1, IH2.
Qed.

Lemma expired_prefix_subset now s (d : LRUDict) r : r ∈ expired_prefix now s d → r ∈ d.
Proof.
  intros Hr. rewrite (expired_fresh_split now s d). apply elem_of_app. by left.
Qed.

Lemma fresh_suffix_subset now s (d : LRUDict) r : r ∈ fresh_suffix now s d → r ∈ d.
Proof.
  intros Hr. rewrite (expired_fresh_split now s d). apply elem_of_app. by right.
Qed.

Lemma keys_subset (d1 d2 : LRUDict) k :
  (∀ r, r ∈ d1 → r ∈ d2) → k ∈ d1.*1 → k ∈ d2.*1.
Proof.
  intros Hsub ([k' v] & -> & Hin)%list_elem_of_fmap.
  apply list_elem_of_fmap. exists (k', v). split; [done|]. by apply Hsub.
Qed.

Section Properties.

Context {Target : Type}.
Implicit Types w : World (Target := Target).

(** ** The sweep *)

Lemma world_eta w :
  with_sessions (_webio_sessions w) (with_expire (_webio_expire w) w) = w.
Proof. by destruct w. Qed.

Lemma sweep_nil s w :
  _webio_expire w = [] → _remove_expired_sessions s w = (inr tt, w).
Proof.
  intros H. rewrite _remove_expired_sessions_equation_1.
  unfold _remove_expired_sessions_unfold_clause_1. simpl. by rewrite H.
Qed.

(** One turn of the loop. *)
Lemma sweep_cons s w sid active_ts rest :
  _webio_expire w = (sid, active_ts) :: rest →
  _remove_expired_sessions s w =
    if Qlt_le_dec (clock w - active_ts) s then
      match move_to_end sid false (lru_setitem sid active_ts rest) with
      | inl e => (inl e, with_expire (lru_setitem sid active_ts rest) w)
      | inr d => (inr tt, with_expire d w)
      end
    else
      match dict_delitem sid (_webio_sessions w) with
      | inl e => (inl e, with_expire rest w)
      | inr m => _remove_expired_sessions s (with_sessions m (with_expire rest w))
      end.
Proof.
  intros H. rewrite _remove_expired_sessions_equation_1.
  unfold _remove_expired_sessions_unfold_clause_1.
  destruct w; simpl in *; subst. reflexivity.
Qed.

(** The sweep returns, having popped the expired prefix and deleted the
    handles of its tokens. *)
Lemma sweep_spec s w :
  lru_wf (_webio_expire w) →
  (∀ sid, sid ∈ (_webio_expire w).*1 → is_Some (_webio_sessions w !! sid)) →
  _remove_expired_sessions s w =
    (inr tt,
     with_sessions
       (del_all (expired_prefix (clock w) s (_webio_expire w)).*1 (_webio_sessions w))
       (with_expire (fresh_suffix (clock w) s (_webio_expire w)) w)).
Proof.
  remember (_webio_expire w) as d eqn:Hd. revert w Hd.
  induction d as [|[sid ts] rest IH]; intros w Hd Hwf Hreg.
  - rewrite sweep_nil by done. simpl. unfold del_all. simpl.
    by rewrite Hd, world_eta.
  - rewrite (sweep_cons s w sid ts rest) by done. simpl.
    apply NoDup_cons in Hwf as [Hsid Hwf]. unfold is_expired. simpl.
    destruct (Qlt_le_dec (clock w - ts) s) as [Hfresh|Hold].
    + rewrite reinsert_front, lru_remove_notin by done. simpl.
      unfold del_all. destruct w; simpl in *. by subst.
    + destruct (Hreg sid) as [h Hh]; [left|].
      unfold dict_delitem. rewrite Hh.
      rewrite (IH (with_sessions (delete sid (_webio_sessions w)) (with_expire rest w)));
        [by destruct w|done|done|].
      simpl. intros k Hk. rewrite lookup_delete_ne by (intros Heq; apply Hsid; by rewrite Heq).
      apply Hreg. by right.
Qed.

Lemma fresh_suffix_filter now s (d : LRUDict) :
  recency_ordered d →
  fresh_suffix now s d = filter (λ r, is_expired now s r = false) d.
Proof.
  intros Hd. pose proof (fresh_suffix_all now s d Hd) as Hall.
  clear Hd. induction d as [|kv d IH]; [done|]. simpl in *.
  destruct (is_expired now s kv) eqn:E.
  - rewrite filter_cons_False by (rewrite E; done). auto.
  - clear IH. symmetry. revert Hall. generalize (kv :: d). intros l Hl.
    induction Hl as [|x l Hx Hl IH]; [done|].
    rewrite filter_cons_True by done. by rewrite IH.
Qed.

(** C2. The expiry sweep returns, and removes all and only the tokens whose
    idle duration (now minus last-active timestamp) is at or above the
    threshold: with the records in recency order, the tracker keeps exactly
    the records below the threshold, in their order; what it pops is a
    prefix of expired records; the handle and the record of every expired
    token are gone, and a token whose record is below the threshold keeps its
    handle.  The clock, the log and the sweep timestamp are untouched. *)
Theorem sweep_removes_exactly_expired session_expire_seconds w :
  lru_wf (_webio_expire w) →
  (∀ sid, sid ∈ (_webio_expire w).*1 → is_Some (_webio_sessions w !! sid)) →
  recency_ordered (_webio_expire w) →
  ∃ w',
    _remove_expired_sessions session_expire_seconds w = (inr tt, w') ∧
    _webio_expire w' =
      filter (λ r, is_expired (clock w) session_expire_seconds r = false)
             (_webio_expire w) ∧
    (∀ sid ts, (sid, ts) ∈ _webio_expire w' ↔
       (sid, ts) ∈ _webio_expire w ∧ (clock w - ts < session_expire_seconds)%Q) ∧
    (∃ popped, _webio_expire w = popped ++ _webio_expire w' ∧
       ∀ sid ts, (sid, ts) ∈ popped → (session_expire_seconds <= clock w - ts)%Q) ∧
    (∀ sid ts, (sid, ts) ∈ _webio_expire w →
       (session_expire_seconds <= clock w - ts)%Q →
       _webio_sessions w' !! sid = None ∧ lru_get sid (_webio_expire w') = None) ∧
    (∀ sid ts, (sid, ts) ∈ _webio_expire w →
       (clock w - ts < session_expire_seconds)%Q →
       _webio_sessions w' !! sid = _webio_sessions w !! sid) ∧
    clock w' = clock w ∧ log w' = log w ∧
    _last_check_session_expire_ts w' = _last_check_session_expire_ts w.
Proof.
  intros Hwf Hreg Hsorted. eexists. split; [by apply sweep_spec|]. simpl.
  set (now := clock w). set (s := session_expire_seconds).
  set (d := _webio_expire w) in *.
  pose proof (expired_fresh_split now s d) as Hsplit.
  pose proof (expired_prefix_all now s d) as Hpre.
  pose proof (fresh_suffix_all now s d Hsorted) as Hsuf.
  rewrite Forall_forall in Hpre, Hsuf.
  assert (Hkeys : ∀ sid, sid ∈ (expired_prefix now s d).*1 →
                         sid ∉ (fresh_suffix now s d).*1).
  { unfold lru_wf in Hwf. rewrite Hsplit, fmap_app in Hwf.
    apply NoDup_app in Hwf as (_ & Hdisj & _). exact Hdisj. }
  assert (Hold : ∀ sid ts, (sid, ts) ∈ d → (s <= now - ts)%Q →
                           (sid, ts) ∈ expired_prefix now s d).
  { intros sid ts Hin Hle. rewrite Hsplit in Hin.
    apply elem_of_app in Hin as [?|Hin]; [done|].
    apply Hsuf, is_expired_false in Hin. simpl in Hin. exfalso. lra. }
  repeat split.
  - by apply fresh_suffix_filter.
  - rewrite fresh_suffix_filter, list_elem_of_filter in H by done. tauto.
  - rewrite fresh_suffix_filter, list_elem_of_filter, is_expired_false in H by done.
    tauto.
  - intros [Hin Hlt]. rewrite fresh_suffix_filter, list_elem_of_filter by done.
    split; [by apply is_expired_false|done].
  - exists (expired_prefix now s d). split; [done|].
    intros sid ts Hin. by apply Hpre, is_expired_true in Hin.
  - rewrite del_all_lookup. rewrite decide_True; [done|].
    apply list_elem_of_fmap. exists (sid, ts). split; [done|]. by apply Hold.
  - apply lru_get_None, Hkeys, list_elem_of_fmap.
    exists (sid, ts). split; [done|]. by apply Hold.
  - intros sid ts Hin Hlt. rewrite del_all_lookup. rewrite decide_False; [done|].
    intros ([sid' ts'] & -> & Hin')%list_elem_of_fmap. simpl in *.
    assert (ts' = ts) as ->.
    { assert (Hin'' : (sid', ts') ∈ d).
      { rewrite Hsplit. apply elem_of_app. by left. }
      apply (lru_get_Some _ _ _ Hwf) in Hin, Hin''. congruence. }
    apply Hpre, is_expired_true in Hin'. simpl in Hin'. lra.
Qed.

(** ** The pairing of the two dicts *)

Lemma paired_dicts_empty : paired_dicts ∅ [].
Proof.
  split; [constructor|]. intros sid. rewrite lookup_empty. split.
  - by intros [? ?].
  - by intros ?%not_elem_of_nil.
Qed.

Lemma paired_dicts_created m (d : LRUDict) sid h ts :
  paired_dicts m d → paired_dicts (<[sid := h]> m) (lru_setitem sid ts d).
Proof.
  intros [Hwf Hiff]. split; [by apply lru_setitem_wf|].
  intros k. rewrite lru_setitem_keys, <- Hiff.
  destruct (decide (sid = k)) as [->|Hne].
  - rewrite lookup_insert_eq. split; [by left|by eexists].
  - rewrite lookup_insert_ne by done. split; [by right|]. by intros [->|?].
Qed.

Lemma paired_dicts_removed m (d : LRUDict) sid :
  paired_dicts m d → paired_dicts (delete sid m) (lru_remove sid d).
Proof.
  intros [Hwf Hiff]. split; [by apply lru_remove_wf|].
  intros k. rewrite lru_remove_keys, <- Hiff.
  destruct (decide (sid = k)) as [->|Hne].
  - rewrite lookup_delete_eq. split; [by intros [? ?]|tauto].
  - rewrite lookup_delete_ne by done. split; [by split|tauto].
Qed.

Lemma paired_dicts_swept now s m (d : LRUDict) :
  paired_dicts m d →
  paired_dicts (del_all (expired_prefix now s d).*1 m) (fresh_suffix now s d).
Proof.
  intros [Hwf Hiff]. pose proof (expired_fresh_split now s d) as Hsplit.
  unfold lru_wf in Hwf. rewrite Hsplit, fmap_app in Hwf.
  apply NoDup_app in Hwf as (_ & Hdisj & Hsuf). split; [done|].
  intros k. rewrite del_all_lookup. case_decide as Hk.
  - split; [by intros [? ?]|]. intros Hk'. by apply Hdisj in Hk.
  - rewrite Hiff. rewrite Hsplit at 1. rewrite fmap_app, elem_of_app. tauto.
Qed.

Lemma paired_tracked w sid :
  paired w → sid ∈ (_webio_expire w).*1 → is_Some (_webio_sessions w !! sid).
Proof. intros [_ Hiff] ?. by apply Hiff. Qed.

(** [_remove_webio_session], statement by statement. *)
Lemma remove_run sid w :
  _remove_webio_session sid w =
    match _webio_sessions w !! sid with
    | None => (inl (KeyError sid), w)
    | Some _ =>
        match lru_get sid (_webio_expire w) with
        | None => (inl (KeyError sid), with_sessions (delete sid (_webio_sessions w)) w)
        | Some _ =>
            (inr tt, with_expire (lru_remove sid (_webio_expire w))
                       (with_sessions (delete sid (_webio_sessions w)) w))
        end
    end.
Proof.
  unfold _remove_webio_session, bind, sessions_delitem, expire_delitem,
    dict_delitem, lru_delitem.
  destruct (_webio_sessions w !! sid); [|done]. simpl.
  by destruct (lru_get sid (_webio_expire w)).
Qed.

Lemma remove_paired sid w : paired w → paired (_remove_webio_session sid w).2.
Proof.
  intros Hp. rewrite remove_run.
  destruct (_webio_sessions w !! sid) as [h|] eqn:Hs; [|done].
  destruct (lru_get sid (_webio_expire w)) as [ts|] eqn:Hg.
  - simpl. by apply paired_dicts_removed.
  - exfalso. apply lru_get_None in Hg. apply Hg, Hp. by eexists.
Qed.

(** ** The dispatcher *)

Variable random_str_at : nat → nat → string.
Variable session_commands : Handle → Q → list (Call (Target := Target)) → list JSON.
Variable session_closed : Handle → Q → list (Call (Target := Target)) → bool.

Abbreviation view_session := (_webio_view_session session_commands session_closed).
Abbreviation view := (_webio_view random_str_at session_commands session_closed).

Lemma decodes_or_raises request :
  body_decodes request ∨
  ∃ e, request_method request = "POST" ∧ request_json request = inl e.
Proof.
  unfold body_decodes. destruct (request_json request) as [e|event].
  - destruct (decide (request_method request = "POST")); [right; by exists e|by left].
  - left. by exists event.
Qed.

(** Line 120 on a body that does not decode: the exception leaves the
    world as it is. *)
Lemma view_session_undecoded s request sid h hdrs w e :
  request_method request = "POST" →
  request_json request = inl e →
  view_session s request sid h hdrs w = (inl e, w).
Proof.
  intros Hm He. unfold _webio_view_session, bind, lift.
  rewrite decide_True by done. by rewrite He.
Qed.

(** Lines 119-131: up to the question [closed()].  The world [wm] is the one
    in which the session, if closed, is removed. *)
Lemma view_session_run s request sid h hdrs w :
  body_decodes request →
  lru_wf (_webio_expire w) →
  (∀ k, k ∈ (_webio_expire w).*1 → is_Some (_webio_sessions w !! k)) →
  ∃ commands answer wm,
    view_session s request sid h hdrs w =
      (if answer : bool
       then bind (_remove_webio_session sid)
                 (λ _, ret (set_headers hdrs (jsonify (JArr commands)))) wm
       else (inr (set_headers hdrs (jsonify (JArr commands))), wm)) ∧
    log wm = log w ++ pushed request h ++
             [GetTaskCommands h commands; Closed h answer] ∧
    clock wm = sweep_time request w ∧
    ((¬ sweep_due request w ∧
      _webio_sessions wm = _webio_sessions w ∧ _webio_expire wm = _webio_expire w ∧
      _last_check_session_expire_ts wm = _last_check_session_expire_ts w) ∨
     (sweep_due request w ∧
      _webio_sessions wm =
        del_all (expired_prefix (clock wm) s (_webio_expire w)).*1 (_webio_sessions w) ∧
      _webio_expire wm = fresh_suffix (clock wm) s (_webio_expire w) ∧
      _last_check_session_expire_ts wm = clock wm)) ∧
    next_handle wm = next_handle w ∧ draws wm = draws w.
Proof.
  intros Hbody Hwf Hreg.
  unfold _webio_view_session, pushed, sweep_due, sweep_time, _make_response, bind, lift.
  destruct (decide (request_method request = "POST")) as [Hm|Hm];
    [destruct (Hbody Hm) as [event ->]|]; simpl;
    (destruct (Qlt_le_dec _ _) as [Hdue|Hnot]; simpl;
       [rewrite sweep_spec by done; simpl|apply Qle_not_lt in Hnot]);
    (match goal with
     | |- context [session_closed ?a ?b ?c] => destruct (session_closed a b c)
     end; [eexists _, true, _|eexists _, false, _]);
    (split; [reflexivity|]); simpl;
    rewrite <- ?app_assoc; simpl; auto 10.
Qed.

(** Lines 119-139: the world [wm] in which [closed()] is asked, and what the
    answer leads to. *)
Lemma view_session_end s request sid h hdrs w :
  body_decodes request →
  paired w →
  ∃ commands answer wm,
    view_session s request sid h hdrs w =
      (if answer : bool then
         match _webio_sessions wm !! sid with
         | None => (inl (KeyError sid), wm)
         | Some _ =>
             (inr (set_headers hdrs (jsonify (JArr commands))),
              with_expire (lru_remove sid (_webio_expire wm))
                (with_sessions (delete sid (_webio_sessions wm)) wm))
         end
       else (inr (set_headers hdrs (jsonify (JArr commands))), wm)) ∧
    paired wm ∧
    log wm = log w ++ pushed request h ++
             [GetTaskCommands h commands; Closed h answer] ∧
    clock wm = sweep_time request w ∧
    ((¬ sweep_due request w ∧
      _webio_sessions wm = _webio_sessions w ∧ _webio_expire wm = _webio_expire w ∧
      _last_check_session_expire_ts wm = _last_check_session_expire_ts w) ∨
     (sweep_due request w ∧
      _webio_sessions wm =
        del_all (expired_prefix (clock wm) s (_webio_expire w)).*1 (_webio_sessions w) ∧
      _webio_expire wm = fresh_suffix (clock wm) s (_webio_expire w) ∧
      _last_check_session_expire_ts wm = clock wm)) ∧
    next_handle wm = next_handle w ∧ draws wm = draws w.
Proof.
  intros Hbody Hp.
  destruct (view_session_run s request sid h hdrs w Hbody)
    as (commands & answer & wm & Heq & Hlog & Hclock & Hdicts & Hnh & Hdr);
    [apply Hp|intros k Hk; apply Hp; exact Hk|].
  assert (Hpm : paired wm).
  { unfold paired. destruct Hdicts as [(_ & -> & -> & _)|(_ & -> & -> & _)]; [done|].
    by apply paired_dicts_swept. }
  exists commands, answer, wm. split; [|done].
  rewrite Heq. destruct answer; [|done]. unfold bind. rewrite remove_run.
  destruct (_webio_sessions wm !! sid) as [h'|] eqn:Hs; [|done].
  destruct (lru_get sid (_webio_expire wm)) as [ts|] eqn:Hg; [done|].
  exfalso. apply lru_get_None in Hg. apply Hg, Hpm. by eexists.
Qed.

Lemma view_session_paired s request sid h hdrs w :
  paired w → paired (view_session s request sid h hdrs w).2.
Proof.
  intros Hp. destruct (decodes_or_raises request) as [Hbody|(e & Hm & He)].
  - destruct (view_session_end s request sid h hdrs w Hbody Hp)
      as (commands & answer & wm & -> & Hpm & _).
    destruct answer; [|done].
    destruct (_webio_sessions wm !! sid); [|done]. simpl.
    by apply paired_dicts_removed.
  - by rewrite (view_session_undecoded _ _ _ _ _ _ e).
Qed.

Lemma created_paired target w : paired w → paired (created random_str_at target w).
Proof. intros Hp. unfold paired, created. simpl. by apply paired_dicts_created. Qed.

Lemma view_paired target s check_origin request w :
  paired w → paired (view target s check_origin request w).2.
Proof.
  intros Hp. unfold _webio_view.
  destruct (decide (request_method request = "OPTIONS")).
  { unfold bind, lift. by destruct (cors_headers _ _ _). }
  unfold bind at 1.
  destruct (truthy (request_headers request !! "Origin")).
  - unfold lift. destruct (cors_headers _ _ _) as [e|hdrs]; [done|].
    destruct (truthy (request_args request !! "test")); [done|].
    destruct (truthy (request_headers request !! "webio-session-id")); simpl.
    + unfold bind, sessions_contains, sessions_getitem.
      destruct (_webio_sessions w !! _) as [h|] eqn:Hs; simpl; [|done].
      rewrite Hs. by apply view_session_paired.
    + unfold bind; simpl. by apply view_session_paired, (created_paired target).
  - unfold ret at 1.
    destruct (truthy (request_args request !! "test")); [done|].
    destruct (truthy (request_headers request !! "webio-session-id")); simpl.
    + unfold bind, sessions_contains, sessions_getitem.
      destruct (_webio_sessions w !! _) as [h|] eqn:Hs; simpl; [|done].
      rewrite Hs. by apply view_session_paired.
    + unfold bind; simpl. by apply view_session_paired, (created_paired target).
Qed.

(** C8. A token has an ActivityRecord in the Recency Tracker if and only if
    it has a SessionHandle in the Registry, and the tracker holds one record
    per token: this holds of the freshly imported module and after every
    request of any sequence served one at a time, whatever the requests, the
    origin predicate and the sessions do (creation, sweep and removal after
    close each touch the two dicts together). *)
Theorem registry_and_tracker_stay_paired target session_expire_seconds check_origin
    (requests : list (Q * Request)) (start : Q) :
  paired (serve_all (view target session_expire_seconds check_origin) requests
            (initial_world start)).
Proof.
  assert (Hgen : ∀ w, paired w →
    paired (serve_all (view target session_expire_seconds check_origin) requests w)).
  { induction requests as [|[arrival request] rest IH]; intros w Hp; [done|].
    simpl. apply IH. unfold serve. by apply view_paired. }
  apply Hgen. exact paired_dicts_empty.
Qed.

(** The dispatch, branch by branch. *)
Lemma view_dispatch target s check_origin request w :
  view target s check_origin request w =
    match dispatch_state request w with
    | PREFLIGHT =>
        match cors_headers (default "" (request_headers request !! "Origin"))
                check_origin None with
        | inl e => (inl e, w)
        | inr hdrs => (inr (mkResponse (Text "") 204 hdrs), w)
        end
    | state =>
        match negotiated check_origin request with
        | inl e => (inl e, w)
        | inr hdrs =>
            match state with
            | BARE_PROBE => (inr (mkResponse (Text "ok") 200 hdrs), w)
            | NEW_SESSION =>
                view_session s request (random_str_at (draws w) 24) (next_handle w)
                  (<["webio-session-id" := HStr (random_str_at (draws w) 24)]> hdrs)
                  (created random_str_at target w)
            | STALE_TOKEN => (inr (jsonify close_session), w)
            | _ =>
                match _webio_sessions w !! session_token request with
                | Some h => view_session s request (session_token request) h hdrs w
                | None => (inl (KeyError (session_token request)), w)
                end
            end
        end
    end.
Proof.
  unfold _webio_view, dispatch_state, negotiated, session_token.
  destruct (decide (request_method request = "OPTIONS")).
  { unfold bind, lift. by destruct (cors_headers _ _ _). }
  unfold bind at 1.
  destruct (truthy (request_headers request !! "Origin")).
  - unfold lift. destruct (cors_headers _ _ _) as [e|hdrs].
    { by repeat case_match. }
    destruct (truthy (request_args request !! "test")); [done|].
    destruct (truthy (request_headers request !! "webio-session-id")); simpl; [|done].
    unfold bind, sessions_contains, sessions_getitem. simpl.
    case_bool_decide as Hs; simpl.
    + by destruct Hs as [h ->].
    + done.
  - unfold ret at 1.
    destruct (truthy (request_args request !! "test")); [done|].
    destruct (truthy (request_headers request !! "webio-session-id")); simpl; [|done].
    unfold bind, sessions_contains, sessions_getitem. simpl.
    case_bool_decide as Hs; simpl.
    + by destruct Hs as [h ->].
    + done.
Qed.

Lemma negotiated_checked check_origin request :
  origin_checked check_origin request → ∃ hdrs, negotiated check_origin request = inr hdrs.
Proof.
  unfold origin_checked, negotiated, cors_headers. intros Hc.
  destruct (truthy _); [|by eexists]. destruct Hc as [b ->]; [done|].
  destruct b; by eexists.
Qed.

(** C3, amended.  A request that is neither a preflight nor a probe and
    carries in its session-token header a non-empty token absent from the
    Registry leaves the world as it was, so no Registry entry and no
    ActivityRecord is created and nothing is sent to any session; and when
    the origin predicate returns where the view calls it (there is no
    non-empty [Origin] header, or the predicate does not raise), the request
    is answered with HTTP 200 and the body
    [[{"command": "close_session"}]]. *)
Theorem stale_token_closes_session target session_expire_seconds check_origin
    request w (t : string) :
  request_method request ≠ "OPTIONS" →
  truthy (request_args request !! "test") = false →
  request_headers request !! "webio-session-id" = Some t →
  t ≠ "" →
  _webio_sessions w !! t = None →
  (view target session_expire_seconds check_origin request w).2 = w ∧
  (origin_checked check_origin request →
   ∃ response,
     view target session_expire_seconds check_origin request w = (inr response, w) ∧
     status response = 200%Z ∧
     body response = Json (JArr [JObj [("command", JStr "close_session")]])).
Proof.
  intros Hm Hp Ht Hne Hs. rewrite view_dispatch.
  unfold dispatch_state, session_token. rewrite decide_False, Hp, Ht by done. simpl.
  rewrite bool_decide_true by done. simpl.
  rewrite bool_decide_false by (rewrite Hs; by intros [? ?]).
  split; [by destruct (negotiated _ _)|]. intros Hc.
  destruct (negotiated_checked _ _ Hc) as [hdrs ->]. by eexists.
Qed.

(** The calls of lines 119-133, whatever the outcome. *)
Lemma view_session_log s request sid h hdrs w :
  body_decodes request →
  paired w →
  ∃ commands answer,
    log (view_session s request sid h hdrs w).2 =
      log w ++ pushed request h ++ [GetTaskCommands h commands; Closed h answer] ∧
    clock (view_session s request sid h hdrs w).2 = sweep_time request w.
Proof.
  intros Hbody Hp.
  destruct (view_session_end s request sid h hdrs w Hbody Hp)
    as (commands & answer & wm & -> & _ & Hlog & Hclock & _).
  exists commands, answer. rewrite <- Hlog, <- Hclock.
  destruct answer; [|done]. by destruct (_webio_sessions wm !! sid).
Qed.

Lemma resume_state_registered request w :
  dispatch_state request w = RESUME_SESSION →
  is_Some (_webio_sessions w !! session_token request).
Proof.
  unfold dispatch_state. destruct (decide _); [done|]. destruct (truthy _); [done|].
  destruct (negb _); [done|]. by case_bool_decide.
Qed.

(** C9. A request that reaches a session (NEW_SESSION or RESUME_SESSION):
    on POST the decoded JSON event is sent to the session, then the worker
    sleeps [WAIT_MS_ON_POST / 1000] seconds (a tenth of a second), and only
    then the output is collected; on any other method, GET in particular,
    nothing is sent to the session and the worker does not sleep.  (On a
    POST whose body does not decode there is no event: nothing is sent, the
    request ends in the exception of the decoding.) *)
Theorem event_forwarded_on_post_only target session_expire_seconds check_origin
    request w :
  paired w →
  origin_checked check_origin request →
  dispatch_state request w = NEW_SESSION ∨ dispatch_state request w = RESUME_SESSION →
  ∃ h before commands answer,
    let w' := (view target session_expire_seconds check_origin request w).2 in
    (dispatch_state request w = NEW_SESSION → before = [NewSession h target]) ∧
    (dispatch_state request w = RESUME_SESSION →
       before = [] ∧ _webio_sessions w !! session_token request = Some h) ∧
    (request_method request = "POST" →
     ∀ event, request_json request = inr event →
       log w' = log w ++ before ++
                [SendClientEvent h event;
                 Sleep (WAIT_MS_ON_POST / 1000);
                 GetTaskCommands h commands; Closed h answer] ∧
       clock w' = (clock w + WAIT_MS_ON_POST / 1000)%Q) ∧
    (request_method request = "POST" →
     ∀ e, request_json request = inl e →
       (view target session_expire_seconds check_origin request w).1 = inl e ∧
       log w' = log w ++ before ∧ clock w' = clock w) ∧
    (request_method request ≠ "POST" →
       log w' = log w ++ before ++ [GetTaskCommands h commands; Closed h answer] ∧
       clock w' = clock w) ∧
    (WAIT_MS_ON_POST / 1000 == 1 # 10)%Q.
Proof.
  intros Hp Hc Hstate. rewrite view_dispatch.
  destruct (negotiated_checked _ _ Hc) as [hdrs ->].
  assert (Hsession : ∀ sid h hdrs' w0 before,
    paired w0 → log w0 = log w ++ before → clock w0 = clock w →
    ∃ commands answer,
      let r := view_session session_expire_seconds request sid h hdrs' w0 in
      (request_method request = "POST" →
       ∀ event, request_json request = inr event →
         log r.2 = log w ++ before ++
                  [SendClientEvent h event; Sleep (WAIT_MS_ON_POST / 1000);
                   GetTaskCommands h commands; Closed h answer] ∧
         clock r.2 = (clock w + WAIT_MS_ON_POST / 1000)%Q) ∧
      (request_method request = "POST" →
       ∀ e, request_json request = inl e →
         r.1 = inl e ∧ log r.2 = log w ++ before ∧ clock r.2 = clock w) ∧
      (request_method request ≠ "POST" →
         log r.2 = log w ++ before ++ [GetTaskCommands h commands; Closed h answer] ∧
         clock r.2 = clock w)).
  { intros sid h hdrs' w0 before Hp0 Hlog0 Hclock0.
    destruct (decodes_or_raises request) as [Hbody|(e & Hm & He)].
    - destruct (view_session_log session_expire_seconds request sid h hdrs' w0 Hbody Hp0)
        as (commands & answer & Hlog & Hclock).
      exists commands, answer. simpl. rewrite Hlog, Hclock, Hlog0.
      unfold pushed, sweep_time. rewrite Hclock0, <- app_assoc.
      split; [|split].
      + intros Hm event He. destruct (decide _); [|done]. by rewrite He.
      + intros Hm e He. destruct (Hbody Hm) as [event He']. congruence.
      + intros Hm. by destruct (decide _).
    - exists [], false. simpl. rewrite (view_session_undecoded _ _ _ _ _ _ e) by done.
      simpl. split; [|split].
      + intros _ event He'. congruence.
      + intros _ e' He'. split; [congruence|done].
      + intros Hm'. done. }
  destruct Hstate as [Hst|Hst]; rewrite Hst.
  - destruct (Hsession (random_str_at (draws w) 24) (next_handle w)
                (<["webio-session-id" := HStr (random_str_at (draws w) 24)]> hdrs)
                (created random_str_at target w) [NewSession (next_handle w) target]
                (created_paired target w Hp) eq_refl eq_refl)
      as (commands & answer & Hpost & Hraise & Hget).
    exists (next_handle w), [NewSession (next_handle w) target], commands, answer.
    simpl in *. split; [done|]. split; [done|]. done.
  - destruct (resume_state_registered _ _ Hst) as [h Hh]. rewrite Hh.
    destruct (Hsession (session_token request) h hdrs w [] Hp
                (eq_sym (app_nil_r _)) eq_refl)
      as (commands & answer & Hpost & Hraise & Hget).
    exists h, [], commands, answer.
    simpl in *. split; [done|]. split; [done|]. done.
Qed.

(** A session just registered (lines 107-112), up to the question
    [closed()]: no other token has appeared, and unless the sweep of this
    request is due with a threshold that the time spent in the request has
    reached, the new handle is in the Registry and its record is the last of
    the tracker. *)
Lemma created_session_end s request hdrs target w :
  body_decodes request →
  paired w →
  let sid := random_str_at (draws w) 24 in
  let h := next_handle w in
  ∃ commands answer wm,
    view_session s request sid h hdrs (created random_str_at target w) =
      (if answer : bool then
         match _webio_sessions wm !! sid with
         | None => (inl (KeyError sid), wm)
         | Some _ =>
             (inr (set_headers hdrs (jsonify (JArr commands))),
              with_expire (lru_remove sid (_webio_expire wm))
                (with_sessions (delete sid (_webio_sessions wm)) wm))
         end
       else (inr (set_headers hdrs (jsonify (JArr commands))), wm)) ∧
    paired wm ∧
    log wm = log w ++ [NewSession h target] ++ pushed request h ++
             [GetTaskCommands h commands; Closed h answer] ∧
    (∀ k x, k ≠ sid → _webio_sessions wm !! k = Some x → _webio_sessions w !! k = Some x) ∧
    ((sweep_due request w → (sweep_time request w - clock w < s)%Q) →
       _webio_sessions wm !! sid = Some h ∧
       ∃ older, _webio_expire wm = older ++ [(sid, clock w)] ∧
                (sid ∉ older.*1) ∧ ∀ r, r ∈ older → r ∈ _webio_expire w).
Proof.
  intros Hbody Hp sid h.
  destruct (view_session_end s request sid h hdrs (created random_str_at target w)
              Hbody (created_paired target w Hp))
    as (commands & answer & wm & Heq & Hpm & Hlog & Hclock & Hdicts & _).
  exists commands, answer, wm. split; [exact Heq|]. split; [exact Hpm|].
  split; [rewrite Hlog; simpl; by rewrite <- app_assoc|].
  change (sweep_time request (created random_str_at target w))
    with (sweep_time request w) in Hclock.
  change (sweep_due request (created random_str_at target w))
    with (sweep_due request w) in Hdicts.
  simpl in Hdicts. fold sid h in Hdicts. unfold lru_setitem in Hdicts.
  pose proof (lru_remove_self_notin sid (_webio_expire w)) as Hsid.
  assert (Hsub : ∀ r, r ∈ lru_remove sid (_webio_expire w) → r ∈ _webio_expire w).
  { intros r Hr. by apply list_elem_of_filter in Hr as [_ Hr]. }
  destruct Hdicts as [(_ & -> & -> & _)|(Hdue & -> & -> & _)].
  - split; [intros k x Hne; by rewrite lookup_insert_ne|].
    intros _. split; [apply lookup_insert_eq|]. by eexists.
  - split.
    { intros k x Hne. rewrite del_all_lookup. destruct (decide (k ∈ _)); [by intros ?|].
      by rewrite lookup_insert_ne. }
    intros Hcond.
    assert (Hfresh : is_expired (clock wm) s (sid, clock w) = false).
    { apply is_expired_false. simpl. rewrite Hclock. by apply Hcond. }
    destruct (fresh_record_stays_last (clock wm) s (lru_remove sid (_webio_expire w))
                _ Hfresh) as [-> ->].
    split.
    + rewrite del_all_lookup. rewrite decide_False; [apply lookup_insert_eq|].
      intros Hin. apply Hsid. revert Hin. apply keys_subset.
      intros r. apply expired_prefix_subset.
    + eexists. split; [done|]. split.
      * intros Hin. apply Hsid. revert Hin. apply keys_subset.
        intros r. apply fresh_suffix_subset.
      * intros r Hr. by apply fresh_suffix_subset, Hsub in Hr.
Qed.


Variable fnmatch : string → string → bool.

(** C10. A view built with [allowed_origins] and [check_origin] both left at
    [None] has an origin predicate that raises [TypeError] on every origin
    (it iterates over [None]); so every OPTIONS request, and every request
    with a non-empty [Origin] header, ends in that exception, not in a
    response, and leaves the world as it was. *)
Theorem default_origin_predicate_raises target session_expire_seconds request w :
  request_method request = "OPTIONS" ∨
    truthy (request_headers request !! "Origin") = true →
  (∀ origin, default_check_origin fnmatch None origin =
               inl (TypeError "'NoneType' object is not iterable")) ∧
  webio_view random_str_at session_commands session_closed fnmatch
      target session_expire_seconds None None request w =
    (inl (TypeError "'NoneType' object is not iterable"), w).
Proof.
  intros Hreq. split; [done|]. unfold webio_view. rewrite view_dispatch.
  unfold dispatch_state, negotiated, cors_headers, default_check_origin.
  destruct (decide (request_method request = "OPTIONS")); [done|].
  destruct Hreq as [? | ->]; [done|]. by repeat case_match.
Qed.

End Properties.

(** * The scenarios, run *)

Example wildcard_scenario :
  example_origins "https://a.example.com" = inr true ∧
  example_origins "https://evil.com" = inr false.
Proof. by vm_compute. Qed.

(** C1 (the code departs from it).  The scenario of the specification:
    threshold 60 s, token [T1] created at t=0 and used by a RESUME_SESSION
    request at t=50.  The dispatcher does not touch the record: it still
    carries the creation time 0 after that request, so the sweep at t=70
    computes an idle time of 70 s and evicts the session, and so does the
    sweep run by the session's own next request at t=71. *)
Theorem resume_does_not_touch_record :
  let view := demo_view never_closed allow_all in
  let resume := demo_request "GET" None (Some T1) in
  let w1 := (serve view 0 (demo_request "GET" None None) at_import).2 in
  let w2 := (serve view 50 resume w1).2 in
  _webio_expire w1 = [(T1, 0%Q)] ∧
  dispatch_state resume (with_clock 50 w1) = RESUME_SESSION ∧
  _webio_expire w2 = [(T1, 0%Q)] ∧
  _webio_sessions (_remove_expired_sessions 60 (with_clock 70 w2)).2 !! T1 = None ∧
  _webio_sessions (serve view 71 resume w2).2 !! T1 = None.
Proof. by vm_compute. Qed.

(** C4 (the code departs from it).  A cross-origin GET from an approved
    origin with a token that is not in the Registry: the negotiated header
    set grants the origin, yet the close-session response carries no header
    at all, while the probe response to the same origin carries the grant. *)
Theorem stale_response_lacks_cors_headers :
  let view := demo_view never_closed example_origins in
  let origin := "https://a.example.com" in
  let stale := demo_request "GET" (Some origin) (Some "gone") in
  let probe := mkRequest "GET" {["Origin" := origin]} {["test" := "1"]} (inr JNull) in
  dispatch_state stale at_import = STALE_TOKEN ∧
  returned_header id "Access-Control-Allow-Origin" (negotiated example_origins stale)
    = Some (HStr origin) ∧
  (view stale at_import).1 = inr (mkResponse (Json close_session) 200 ∅) ∧
  returned_header resp_headers "Access-Control-Allow-Origin"
    (view probe at_import).1 = Some (HStr origin).
Proof. by vm_compute. Qed.

(** C5 (the code departs from it).  Removing a token that was never present
    raises [KeyError]; so does removing a token a second time; and the
    dispatcher itself runs into it: a session created at t=0 whose task ends
    at t=90 is evicted by the sweep of its request at t=100 and then removed
    again because it reports closed, so that request ends in [KeyError] and
    no response. *)
Theorem remove_raises_on_absent_token :
  let view := demo_view (closed_from 90) allow_all in
  let w1 := (serve view 0 (demo_request "GET" None None) at_import).2 in
  let once := _remove_webio_session T1 w1 in
  _remove_webio_session T1 at_import =
    (inl (KeyError T1), at_import) ∧
  once.1 = inr tt ∧
  _remove_webio_session T1 once.2 = (inl (KeyError T1), once.2) ∧
  _webio_sessions w1 !! T1 = Some 0 ∧
  (serve view 100 (demo_request "GET" None (Some T1)) w1).1 = inl (KeyError T1).
Proof. by vm_compute. Qed.

(** C3, as stated, fails: on the view built with every keyword argument at
    its default, a GET with an [Origin] header and a token that is not in
    the Registry is a STALE_TOKEN request and ends in [TypeError], raised by
    the origin predicate before the token is looked at; no response is
    returned. *)
Lemma stale_token_on_default_view_raises :
  let stale := demo_request "GET" (Some "https://a.example.com") (Some "gone") in
  request_method stale ≠ "OPTIONS" ∧
  truthy (request_args stale !! "test") = false ∧
  request_headers stale !! "webio-session-id" = Some "gone" ∧
  _webio_sessions at_import !! "gone" = None ∧
  dispatch_state stale at_import = STALE_TOKEN ∧
  (default_view stale at_import).1 = inl (TypeError "'NoneType' object is not iterable").
Proof. by vm_compute. Qed.


(** * The theorems at work on the deployment *)

Lemma sweep_removes_exactly_expired_witness :
  ∃ w',
    _remove_expired_sessions 60 two_sessions_at_70 = (inr tt, w') ∧
    _webio_expire w' = [(T2, 50%Q)] ∧
    _webio_sessions w' !! T1 = None ∧
    _webio_sessions w' !! T2 = _webio_sessions two_sessions_at_70 !! T2.
Proof.
  destruct (sweep_removes_exactly_expired 60 two_sessions_at_70)
    as (w' & Heq & Hfilter & _ & _ & Hold & Hfresh & _).
  - vm_compute. apply NoDup_cons. split; [|apply NoDup_singleton].
    intros Hin. apply list_elem_of_singleton in Hin. discriminate.
  - vm_compute. intros sid Hin. repeat (apply elem_of_cons in Hin as [->|Hin]);
      [by eexists|by eexists|by apply not_elem_of_nil in Hin].
  - vm_compute. repeat constructor; discriminate.
  - exists w'. split; [exact Heq|]. split; [rewrite Hfilter; reflexivity|]. split.
    + apply (Hold T1 0%Q); [vm_compute; left|vm_compute; discriminate].
    + apply (Hfresh T2 50%Q); [vm_compute; right; left|reflexivity].
Defined.

Lemma stale_token_closes_session_witness :
  (demo_view never_closed allow_all (demo_request "GET" None (Some "gone")) at_import).2
    = at_import ∧
  (origin_checked allow_all (demo_request "GET" None (Some "gone")) →
   ∃ response,
     demo_view never_closed allow_all (demo_request "GET" None (Some "gone")) at_import
       = (inr response, at_import) ∧
     status response = 200%Z ∧
     body response = Json (JArr [JObj [("command", JStr "close_session")]])).
Proof.
  unfold demo_view.
  apply (stale_token_closes_session demo_random_str_at no_commands never_closed
           "task" DEFAULT_SESSION_EXPIRE_SECONDS allow_all
           (demo_request "GET" None (Some "gone")) at_import "gone").
  - vm_compute. discriminate.
  - reflexivity.
  - reflexivity.
  - discriminate.
  - reflexivity.
Defined.

Lemma event_forwarded_on_post_only_witness :
  ∃ h before commands answer,
    let w' := (demo_view never_closed allow_all first_post at_import).2 in
    (dispatch_state first_post at_import = NEW_SESSION → before = [NewSession h "task"]) ∧
    (dispatch_state first_post at_import = RESUME_SESSION →
       before = [] ∧ _webio_sessions at_import !! session_token first_post = Some h) ∧
    (request_method first_post = "POST" →
     ∀ event, request_json first_post = inr event →
       log w' = log at_import ++ before ++
                [SendClientEvent h event;
                 Sleep (WAIT_MS_ON_POST / 1000);
                 GetTaskCommands h commands; Closed h answer] ∧
       clock w' = (clock at_import + WAIT_MS_ON_POST / 1000)%Q) ∧
    (request_method first_post = "POST" →
     ∀ e, request_json first_post = inl e →
       (demo_view never_closed allow_all first_post at_import).1 = inl e ∧
       log w' = log at_import ++ before ∧ clock w' = clock at_import) ∧
    (request_method first_post ≠ "POST" →
       log w' = log at_import ++ before ++ [GetTaskCommands h commands; Closed h answer] ∧
       clock w' = clock at_import) ∧
    (WAIT_MS_ON_POST / 1000 == 1 # 10)%Q.
Proof.
  unfold demo_view.
  apply (event_forwarded_on_post_only demo_random_str_at no_commands never_closed
           "task" DEFAULT_SESSION_EXPIRE_SECONDS allow_all first_post at_import).
  - exact paired_dicts_empty.
  - intros Horigin. vm_compute in Horigin. discriminate.
  - left. reflexivity.
Defined.

Lemma default_origin_predicate_raises_witness :
  (∀ origin, default_check_origin demo_fnmatch None origin =
               inl (TypeError "'NoneType' object is not iterable")) ∧
  webio_view demo_random_str_at no_commands never_closed demo_fnmatch
      "task" None None None (demo_request "OPTIONS" None None) at_import =
    (inl (TypeError "'NoneType' object is not iterable"), at_import).
Proof.
  apply (default_origin_predicate_raises demo_random_str_at no_commands never_closed
           demo_fnmatch "task" None (demo_request "OPTIONS" None None) at_import).
  left. reflexivity.
Defined.


(** * Further properties of the module *)

Section Further.

Context {Target : Type}.
Implicit Types w : World (Target := Target).

Variable random_str_at : nat → nat → string.
Variable session_commands : Handle → Q → list (Call (Target := Target)) → list JSON.
Variable session_closed : Handle → Q → list (Call (Target := Target)) → bool.

Abbreviation view_session' := (_webio_view_session session_commands session_closed).
Abbreviation view' := (_webio_view random_str_at session_commands session_closed).

Lemma cors_headers_total (origin : string) (predicate : string → bool) hdrs :
  cors_headers origin (λ o, inr (predicate o)) hdrs =
    inr (if predicate origin then cors_grant origin ∪ default ∅ hdrs else default ∅ hdrs).
Proof.
  unfold cors_headers. destruct (predicate origin); [|done]. f_equal.
  rewrite <- (left_id_L ∅ (∪) (default ∅ hdrs)) at 1.
  by rewrite !insert_union_l.
Qed.

Lemma negotiated_total (predicate : string → bool) request :
  negotiated (λ o, inr (predicate o)) request =
    inr (if truthy (request_headers request !! "Origin") && predicate (origin_of request)
         then cors_grant (origin_of request) else ∅).
Proof.
  unfold negotiated, origin_of. destruct (truthy _); [|done].
  rewrite cors_headers_total. simpl. destruct (predicate _); [|done].
  by rewrite (right_id_L ∅ (∪)).
Qed.

(** X1. A preflight (OPTIONS) request is answered with status 204, an empty
    body and the grant for its origin if the predicate approves it, no
    header otherwise; the predicate is asked about [''] when there is no
    [Origin] header; whatever token or query the request carries, the
    world is left as it was. *)
Theorem preflight_touches_nothing target session_expire_seconds
    (predicate : string → bool) request w :
  request_method request = "OPTIONS" →
  view' target session_expire_seconds (λ o, inr (predicate o)) request w =
    (inr (mkResponse (Text "") 204
            (if predicate (origin_of request) then cors_grant (origin_of request) else ∅)),
     w).
Proof.
  intros Hm. unfold _webio_view, origin_of. rewrite decide_True by done.
  unfold bind, lift. rewrite cors_headers_total. simpl.
  destruct (predicate _); [|done]. by rewrite (right_id_L ∅ (∪)).
Qed.

(** X2. A request other than OPTIONS with a non-empty [test] query argument
    is answered with status 200 and body [ok], with the grant when it has a
    non-empty [Origin] that the predicate approves; the world is left as it
    was: no session is created even when the request has no token. *)
Theorem probe_touches_nothing target session_expire_seconds
    (predicate : string → bool) request w :
  request_method request ≠ "OPTIONS" →
  truthy (request_args request !! "test") = true →
  view' target session_expire_seconds (λ o, inr (predicate o)) request w =
    (inr (mkResponse (Text "ok") 200
            (if truthy (request_headers request !! "Origin") && predicate (origin_of request)
             then cors_grant (origin_of request) else ∅)),
     w).
Proof.
  intros Hm Ht. rewrite view_dispatch. unfold dispatch_state.
  rewrite decide_False, Ht by done. by rewrite negotiated_total.
Qed.

Lemma dispatch_state_without_origin request w :
  dispatch_state (without_origin request) w = dispatch_state request w.
Proof.
  unfold dispatch_state, session_token, without_origin. simpl.
  by rewrite lookup_delete_ne.
Qed.

(** X3. A rejected origin is not refused: when the predicate rejects the
    origin of a request other than OPTIONS, the view does to the world and
    answers exactly what it does for the same request without its [Origin]
    header. *)
Theorem rejected_origin_served_as_same_origin target session_expire_seconds
    check_origin request w :
  request_method request ≠ "OPTIONS" →
  check_origin (origin_of request) = inr false →
  view' target session_expire_seconds check_origin request w =
  view' target session_expire_seconds check_origin (without_origin request) w.
Proof.
  intros Hm Hrej. rewrite !view_dispatch, dispatch_state_without_origin.
  assert (negotiated check_origin request = inr ∅) as ->.
  { unfold negotiated, cors_headers. fold (origin_of request). rewrite Hrej.
    by destruct (truthy _). }
  assert (negotiated check_origin (without_origin request) = inr ∅) as ->.
  { unfold negotiated, without_origin. simpl. by rewrite lookup_delete_eq. }
  assert (session_token (without_origin request) = session_token request) as ->.
  { unfold session_token, without_origin. simpl. by rewrite lookup_delete_ne. }
  unfold dispatch_state. rewrite decide_False by done.
  by repeat case_match.
Qed.

(** ** The sweep, without the recency order *)

Lemma fresh_suffix_settled now s (d : LRUDict) :
  expired_prefix now s (fresh_suffix now s d) = [] ∧
  fresh_suffix now s (fresh_suffix now s d) = fresh_suffix now s d.
Proof.
  destruct (fresh_suffix now s d) as [|kv rest] eqn:E; [done|].
  apply fresh_suffix_head in E. simpl. by rewrite E.
Qed.

Lemma swept_tracked now s (m : gmap string Handle) (d : LRUDict) :
  lru_wf d →
  (∀ sid, sid ∈ d.*1 → is_Some (m !! sid)) →
  ∀ sid, sid ∈ (fresh_suffix now s d).*1 →
         is_Some (del_all (expired_prefix now s d).*1 m !! sid).
Proof.
  intros Hwf Hreg sid Hin. unfold lru_wf in Hwf.
  rewrite (expired_fresh_split now s d), fmap_app in Hwf.
  apply NoDup_app in Hwf as (_ & Hdisj & _).
  rewrite del_all_lookup, decide_False by (intros Hp; by apply Hdisj in Hp).
  apply Hreg. revert Hin. apply keys_subset. intros r. apply fresh_suffix_subset.
Qed.

Lemma fresh_suffix_wf now s (d : LRUDict) : lru_wf d → lru_wf (fresh_suffix now s d).
Proof.
  unfold lru_wf. rewrite (expired_fresh_split now s d) at 1. rewrite fmap_app.
  by intros (_ & _ & ?)%NoDup_app.
Qed.

(** X4. Whatever the order of the records, the sweep never removes a session
    whose idle duration is below the threshold: given one record per token
    and a handle for every tracked token, it returns, what is left of the
    tracker is a suffix of it, every record below the threshold is still
    there with the handle of its token, and the handles of untracked tokens
    are untouched. *)
Theorem sweep_spares_fresh_records session_expire_seconds w :
  lru_wf (_webio_expire w) →
  (∀ sid, sid ∈ (_webio_expire w).*1 → is_Some (_webio_sessions w !! sid)) →
  ∃ w',
    _remove_expired_sessions session_expire_seconds w = (inr tt, w') ∧
    _webio_expire w' `suffix_of` _webio_expire w ∧
    (∀ sid ts, (sid, ts) ∈ _webio_expire w →
       (clock w - ts < session_expire_seconds)%Q →
       (sid, ts) ∈ _webio_expire w' ∧
       _webio_sessions w' !! sid = _webio_sessions w !! sid) ∧
    (∀ sid, sid ∉ (_webio_expire w).*1 →
       _webio_sessions w' !! sid = _webio_sessions w !! sid).
Proof.
  intros Hwf Hreg. eexists. split; [by apply sweep_spec|]. simpl.
  set (now := clock w). set (s := session_expire_seconds).
  set (d := _webio_expire w) in *.
  pose proof (expired_fresh_split now s d) as Hsplit.
  pose proof (expired_prefix_all now s d) as Hpre. rewrite Forall_forall in Hpre.
  split; [by exists (expired_prefix now s d)|]. split.
  - intros sid ts Hin Hlt.
    assert (Hsuf : (sid, ts) ∈ fresh_suffix now s d).
    { rewrite Hsplit in Hin. apply elem_of_app in Hin as [Hin|Hin]; [|done].
      apply Hpre, is_expired_true in Hin. simpl in Hin. exfalso. lra. }
    split; [done|]. rewrite del_all_lookup, decide_False; [done|].
    intros Hp. unfold lru_wf in Hwf. rewrite Hsplit, fmap_app in Hwf.
    apply NoDup_app in Hwf as (_ & Hdisj & _). apply (Hdisj sid Hp).
    apply list_elem_of_fmap. by exists (sid, ts).
  - intros sid Hnin. rewrite del_all_lookup, decide_False; [done|].
    intros Hp. apply Hnin. revert Hp. apply keys_subset.
    intros r. apply expired_prefix_subset.
Qed.

(** X5. Sweeping twice at the same instant does what sweeping once does:
    the second sweep returns and changes nothing. *)
Theorem sweep_twice_is_sweep_once session_expire_seconds w :
  lru_wf (_webio_expire w) →
  (∀ sid, sid ∈ (_webio_expire w).*1 → is_Some (_webio_sessions w !! sid)) →
  ∃ w',
    _remove_expired_sessions session_expire_seconds w = (inr tt, w') ∧
    _remove_expired_sessions session_expire_seconds w' = (inr tt, w').
Proof.
  intros Hwf Hreg. eexists. split; [by apply sweep_spec|].
  rewrite sweep_spec; simpl.
  - destruct (fresh_suffix_settled (clock w) session_expire_seconds (_webio_expire w))
      as [-> ->]. done.
  - by apply fresh_suffix_wf.
  - by apply swept_tracked.
Qed.

(** X6. When the least-recently-active record is below the threshold the
    sweep changes nothing at all, whatever lies behind that record: an
    expired record behind a fresh one stays, with its handle. *)
Theorem sweep_stops_at_fresh_head session_expire_seconds w sid ts rest :
  lru_wf (_webio_expire w) →
  _webio_expire w = (sid, ts) :: rest →
  (clock w - ts < session_expire_seconds)%Q →
  _remove_expired_sessions session_expire_seconds w = (inr tt, w).
Proof.
  intros Hwf Hd Hlt. rewrite (sweep_cons _ _ sid ts rest) by done.
  destruct (Qlt_le_dec (clock w - ts) session_expire_seconds) as [_|Hle];
    [|exfalso; lra].
  rewrite Hd in Hwf. apply NoDup_cons in Hwf as [Hsid _].
  rewrite reinsert_front, lru_remove_notin by done.
  destruct w; simpl in *. by subst.
Qed.

Lemma sweep_outcome s w :
  lru_wf (_webio_expire w) →
  ((∀ sid, sid ∈ (expired_prefix (clock w) s (_webio_expire w)).*1 →
           is_Some (_webio_sessions w !! sid)) ∧
   (_remove_expired_sessions s w).1 = inr tt) ∨
  (∃ sid, sid ∈ (expired_prefix (clock w) s (_webio_expire w)).*1 ∧
          _webio_sessions w !! sid = None ∧
          (_remove_expired_sessions s w).1 = inl (KeyError sid) ∧
          sid ∉ (_webio_expire (_remove_expired_sessions s w).2).*1).
Proof.
  remember (_webio_expire w) as d eqn:Hd. revert w Hd.
  induction d as [|[sid ts] rest IH]; intros w Hd Hwf.
  - left. rewrite sweep_nil by done. split; [|done].
    by intros sid ?%not_elem_of_nil.
  - rewrite (sweep_cons s w sid ts rest) by done. simpl.
    apply NoDup_cons in Hwf as [Hsid Hwf]. unfold is_expired. simpl.
    destruct (Qlt_le_dec (clock w - ts) s) as [Hfresh|Hold].
    + left. rewrite reinsert_front. split; [|done]. by intros k ?%not_elem_of_nil.
    + unfold dict_delitem.
      destruct (_webio_sessions w !! sid) as [h|] eqn:Hh.
      * destruct (IH (with_sessions (delete sid (_webio_sessions w)) (with_expire rest w))
                    eq_refl Hwf) as [[Hall Hok]|(k & Hk & Hnone & Hraise & Hgone)];
          simpl in *.
        -- left. split; [|done]. intros k [->|Hk]%elem_of_cons; [by eexists|].
           apply Hall in Hk. destruct (decide (sid = k)) as [->|Hne].
           ++ rewrite lookup_delete_eq in Hk. by destruct Hk.
           ++ by rewrite lookup_delete_ne in Hk.
        -- right. exists k. split; [by right|]. split; [|done].
           rewrite lookup_delete_ne in Hnone; [done|].
           intros ->. apply Hsid. revert Hk. apply keys_subset.
           intros r. apply expired_prefix_subset.
      * right. exists sid. simpl. split; [by left|]. done.
Qed.

(** X7. With one record per token, the sweep returns exactly when every
    token of the expired prefix of the tracker has a handle; otherwise it
    raises [KeyError] for such a token without a handle, whose record it
    has already popped. *)
Theorem sweep_raises_on_expired_record_without_handle session_expire_seconds w :
  lru_wf (_webio_expire w) →
  ((_remove_expired_sessions session_expire_seconds w).1 = inr tt ↔
   ∀ sid, sid ∈ (expired_prefix (clock w) session_expire_seconds (_webio_expire w)).*1 →
          is_Some (_webio_sessions w !! sid)) ∧
  (∀ e, (_remove_expired_sessions session_expire_seconds w).1 = inl e →
     ∃ sid, e = KeyError sid ∧
       sid ∈ (expired_prefix (clock w) session_expire_seconds (_webio_expire w)).*1 ∧
       _webio_sessions w !! sid = None ∧
       sid ∉ (_webio_expire (_remove_expired_sessions session_expire_seconds w).2).*1).
Proof.
  intros Hwf.
  destruct (sweep_outcome session_expire_seconds w Hwf)
    as [[Hall Hok]|(k & Hk & Hnone & Hraise & Hgone)].
  - split; [done|]. intros e He. congruence.
  - split.
    + split; [intros He; congruence|]. intros Hall. apply Hall in Hk.
      rewrite Hnone in Hk. by destruct Hk.
    + intros e He. exists k. split; [congruence|done].
Qed.

(** ** Removal *)

(** X8. Removing a token that has a handle and a record deletes exactly
    these two and nothing else (the other records keep their order), and a
    second removal of the same token raises [KeyError] and changes nothing;
    removing a token that has no handle raises [KeyError] and changes
    nothing; removing a token that has a handle but no record deletes the
    handle and then raises. *)
Theorem remove_deletes_the_pair_once sid w :
  (_webio_sessions w !! sid = None →
     _remove_webio_session sid w = (inl (KeyError sid), w)) ∧
  (is_Some (_webio_sessions w !! sid) → sid ∈ (_webio_expire w).*1 →
     ∃ w', _remove_webio_session sid w = (inr tt, w') ∧
       _webio_sessions w' = delete sid (_webio_sessions w) ∧
       _webio_expire w' = filter (λ r, r.1 ≠ sid) (_webio_expire w) ∧
       log w' = log w ∧ clock w' = clock w ∧
       _remove_webio_session sid w' = (inl (KeyError sid), w')) ∧
  (is_Some (_webio_sessions w !! sid) → sid ∉ (_webio_expire w).*1 →
     _remove_webio_session sid w =
       (inl (KeyError sid), with_sessions (delete sid (_webio_sessions w)) w)).
Proof.
  rewrite remove_run. split; [by intros ->|]. split.
  - intros [h Hh] Hin. rewrite Hh.
    destruct (lru_get sid (_webio_expire w)) as [ts|] eqn:Hg;
      [|by apply lru_get_None in Hg].
    eexists. split; [done|]. simpl. repeat split.
    rewrite remove_run. simpl. by rewrite lookup_delete_eq.
  - intros [h Hh] Hnin. rewrite Hh. apply lru_get_None in Hnin. by rewrite Hnin.
Qed.

(** ** A request that reaches a session *)

Abbreviation session_end := (view_session_end session_commands session_closed).
Abbreviation session_undecoded := (view_session_undecoded session_commands session_closed).

Lemma view_session_tracker_sublist s request sid h hdrs w :
  paired w →
  _webio_expire (view_session' s request sid h hdrs w).2 `sublist_of` _webio_expire w.
Proof.
  intros Hp. destruct (decodes_or_raises request) as [Hbody|(e & Hm & He)];
    [|by rewrite (session_undecoded _ _ _ _ _ _ e)].
  destruct (session_end s request sid h hdrs w Hbody Hp)
    as (commands & answer & wm & -> & _ & _ & _ & Hdicts & _).
  assert (Hwm : _webio_expire wm `sublist_of` _webio_expire w).
  { destruct Hdicts as [(_ & _ & -> & _)|(_ & _ & -> & _)]; [done|].
    rewrite (expired_fresh_split (clock wm) s (_webio_expire w)) at 2.
    by apply sublist_inserts_l. }
  destruct answer; [|done].
  destruct (_webio_sessions wm !! sid); [|done]. simpl.
  etrans; [apply sublist_filter|done].
Qed.

(** X9. Timestamps are written at creation only.  Whatever the request, the
    records of the tracker after it are records it had before, in the same
    order and with the same timestamps; only a NEW_SESSION request may add
    one, the record of its token with the time of the request, at the end.
    In particular a RESUME_SESSION request neither moves a record nor
    renews a timestamp. *)
Theorem tracker_written_only_at_creation target session_expire_seconds
    check_origin request w :
  paired w →
  let w' := (view' target session_expire_seconds check_origin request w).2 in
  (dispatch_state request w ≠ NEW_SESSION →
     _webio_expire w' `sublist_of` _webio_expire w) ∧
  (dispatch_state request w = NEW_SESSION →
     _webio_expire w' `sublist_of`
       _webio_expire w ++ [(random_str_at (draws w) 24, clock w)]).
Proof.
  intros Hp w'. unfold w'. rewrite view_dispatch.
  assert (Hnew : _webio_expire (created random_str_at target w) `sublist_of`
                 _webio_expire w ++ [(random_str_at (draws w) 24, clock w)]).
  { simpl. unfold lru_setitem. apply sublist_app; [apply sublist_filter|done]. }
  destruct (dispatch_state request w) eqn:Hst.
  - split; [|done]. intros _. by destruct (cors_headers _ _ _).
  - split; [|done]. intros _. by destruct (negotiated _ _).
  - split; [done|]. intros _. destruct (negotiated _ _); [by apply sublist_inserts_r|].
    etrans; [apply view_session_tracker_sublist, (created_paired _ target w Hp)|done].
  - split; [|done]. intros _. by destruct (negotiated _ _).
  - split; [|done]. intros _. destruct (negotiated _ _); [done|].
    destruct (_webio_sessions w !! session_token request); [|done].
    by apply view_session_tracker_sublist.
Qed.

Lemma view_session_others s request sid h hdrs w k hk :
  paired w → k ≠ sid →
  _webio_sessions w !! k = Some hk →
  let w' := (view_session' s request sid h hdrs w).2 in
  _webio_sessions w' !! k = Some hk ∨
  (∃ ts, (k, ts) ∈ _webio_expire w ∧
         (s <= clock w' - ts)%Q ∧
         (REMOVE_EXPIRED_SESSIONS_INTERVAL < clock w' - _last_check_session_expire_ts w)%Q ∧
         _webio_sessions w' !! k = None).
Proof.
  intros Hp Hne Hk w'. unfold w'.
  destruct (decodes_or_raises request) as [Hbody|(e & Hm & He)];
    [|left; by rewrite (session_undecoded _ _ _ _ _ _ e)].
  destruct (session_end s request sid h hdrs w Hbody Hp)
    as (commands & answer & wm & -> & _ & _ & Hclock & Hdicts & _).
  assert (Hwm : _webio_sessions wm !! k = Some hk ∨
    (∃ ts, (k, ts) ∈ _webio_expire w ∧ (s <= clock wm - ts)%Q ∧
       (REMOVE_EXPIRED_SESSIONS_INTERVAL < clock wm - _last_check_session_expire_ts w)%Q ∧
       _webio_sessions wm !! k = None)).
  { destruct Hdicts as [(_ & -> & _)|(Hdue & -> & _)]; [by left|].
    unfold sweep_due in Hdue. rewrite <- Hclock in Hdue.
    rewrite del_all_lookup.
    destruct (decide (k ∈ _)) as [Hin|Hnin]; [right|by left].
    apply list_elem_of_fmap in Hin as ([k' ts] & -> & Hin). exists ts.
    split; [by apply expired_prefix_subset in Hin|]. split; [|done].
    pose proof (expired_prefix_all (clock wm) s (_webio_expire w)) as Hall.
    rewrite Forall_forall in Hall. by apply Hall, is_expired_true in Hin. }
  destruct answer; [|done].
  destruct (_webio_sessions wm !! sid); [|done]. simpl.
  by rewrite lookup_delete_ne.
Qed.

(** X10. A request removes no session but the one it serves, unless the
    sweep is due and the session is expired: a token other than the one the
    request carries or creates keeps its handle, or else its record was at
    or above the threshold and more than [REMOVE_EXPIRED_SESSIONS_INTERVAL]
    seconds had passed since the last sweep. *)
Theorem others_evicted_only_when_expired target session_expire_seconds
    check_origin request w k hk :
  paired w →
  k ≠ session_token request →
  k ≠ random_str_at (draws w) 24 →
  _webio_sessions w !! k = Some hk →
  let w' := (view' target session_expire_seconds check_origin request w).2 in
  _webio_sessions w' !! k = Some hk ∨
  (∃ ts, (k, ts) ∈ _webio_expire w ∧
         (session_expire_seconds <= clock w' - ts)%Q ∧
         (REMOVE_EXPIRED_SESSIONS_INTERVAL < clock w' - _last_check_session_expire_ts w)%Q ∧
         _webio_sessions w' !! k = None).
Proof.
  intros Hp Hne1 Hne2 Hk w'. unfold w'. rewrite view_dispatch.
  destruct (dispatch_state request w).
  - left. by destruct (cors_headers _ _ _).
  - left. by destruct (negotiated _ _).
  - destruct (negotiated _ _); [by left|].
    destruct (view_session_others session_expire_seconds request
                (random_str_at (draws w) 24) (next_handle w)
                (<["webio-session-id" := HStr (random_str_at (draws w) 24)]> g)
                (created random_str_at target w) k hk
                (created_paired _ target w Hp) Hne2)
      as [Hkept|(ts & Hin & Hexp & Hdue & Hgone)].
    + simpl. by rewrite lookup_insert_ne.
    + by left.
    + right. exists ts. split; [|done]. simpl in Hin. unfold lru_setitem in Hin.
      apply elem_of_app in Hin as [Hin|Hin].
      * by apply list_elem_of_filter in Hin as [_ Hin].
      * apply list_elem_of_singleton in Hin. exfalso. apply Hne2. by injection Hin.
  - left. by destruct (negotiated _ _).
  - destruct (negotiated _ _); [by left|].
    destruct (_webio_sessions w !! session_token request); [|by left].
    by apply view_session_others.
Qed.



Lemma cors_grant_no_token origin : cors_grant origin !! "webio-session-id" = None.
Proof. reflexivity. Qed.

(** X12. What a request that reaches a session answers, when it answers:
    status 200; as body the commands that [get_task_commands()] returned,
    pulled after the event was pushed; as headers the grant for an approved
    non-empty origin, and, on NEW_SESSION only, the session-token header
    with the new token.  A RESUME_SESSION response never carries the
    session-token header. *)
Theorem session_response_content target session_expire_seconds
    (predicate : string → bool) request w :
  paired w →
  dispatch_state request w = NEW_SESSION ∨ dispatch_state request w = RESUME_SESSION →
  let run := view' target session_expire_seconds (λ o, inr (predicate o)) in
  let grant := if truthy (request_headers request !! "Origin") && predicate (origin_of request)
               then cors_grant (origin_of request) else ∅ in
  ∃ h before commands answer,
    (body_decodes request →
     log (run request w).2 =
       log w ++ before ++ pushed request h ++
       [GetTaskCommands h commands; Closed h answer]) ∧
    ∀ response, (run request w).1 = inr response →
      status response = 200%Z ∧
      body response = Json (JArr commands) ∧
      (dispatch_state request w = NEW_SESSION →
         resp_headers response =
           <["webio-session-id" := HStr (random_str_at (draws w) 24)]> grant) ∧
      (dispatch_state request w = RESUME_SESSION →
         resp_headers response = grant ∧
         resp_headers response !! "webio-session-id" = None).
Proof.
  intros Hp Hstate run grant. unfold run.
  rewrite view_dispatch, negotiated_total. fold grant.
  destruct (decodes_or_raises request) as [Hbody|(e & Hm & He)].
  - destruct Hstate as [Hst|Hst]; rewrite Hst.
    + destruct (session_end session_expire_seconds request
                  (random_str_at (draws w) 24) (next_handle w)
                  (<["webio-session-id" := HStr (random_str_at (draws w) 24)]> grant)
                  (created random_str_at target w) Hbody (created_paired _ target w Hp))
        as (commands & answer & wm & -> & _ & Hlog & _).
      exists (next_handle w), [NewSession (next_handle w) target], commands, answer.
      split.
      { intros _. transitivity (log wm);
          [destruct answer; [by destruct (_webio_sessions wm !! _)|done]|].
        rewrite Hlog. simpl. by rewrite <- app_assoc. }
      intros response Hresp.
      assert (response = set_headers
                (<["webio-session-id" := HStr (random_str_at (draws w) 24)]> grant)
                (jsonify (JArr commands))) as ->.
      { destruct answer; [|by simplify_eq/=].
        destruct (_webio_sessions wm !! _); by simplify_eq/=. }
      simpl. rewrite (right_id_L ∅ (∪)). repeat split; done.
    + destruct (resume_state_registered _ _ Hst) as [h Hh]. rewrite Hh.
      destruct (session_end session_expire_seconds request
                  (session_token request) h grant w Hbody Hp)
        as (commands & answer & wm & -> & _ & Hlog & _).
      exists h, [], commands, answer. split.
      { intros _. transitivity (log wm);
          [destruct answer; [by destruct (_webio_sessions wm !! _)|done]|done]. }
      intros response Hresp.
      assert (response = set_headers grant (jsonify (JArr commands))) as ->.
      { destruct answer; [|by simplify_eq/=].
        destruct (_webio_sessions wm !! _); by simplify_eq/=. }
      simpl. rewrite (right_id_L ∅ (∪)). repeat split; try done.
      unfold grant. destruct (_ && _); [apply cors_grant_no_token|done].
  - exists 0, [], [], false. split.
    { intros Hbody. destruct (Hbody Hm) as [event He']. congruence. }
    intros response. destruct Hstate as [Hst|Hst]; rewrite Hst.
    + by rewrite (session_undecoded _ _ _ _ _ _ e).
    + destruct (resume_state_registered _ _ Hst) as [h ->].
      by rewrite (session_undecoded _ _ _ _ _ _ e).
Qed.

(** X13. A session is served once more by the request whose sweep evicts
    it.  When, in a world whose Registry and tracker are paired, a
    RESUME_SESSION request (origin predicate returning, body
    decoded) finds the sweep due and the record of its own token at or above
    the threshold, the records being in recency order, the sweep removes the
    session from the Registry, and yet the commands are pulled from it: if
    the session is still open they are returned in the response, and if it
    reports closed the second removal raises [KeyError] for the token, so
    that the commands pulled are lost. *)
Theorem evicted_session_is_served_once_more target session_expire_seconds
    check_origin request w ts :
  paired w →
  recency_ordered (_webio_expire w) →
  origin_checked check_origin request →
  body_decodes request →
  dispatch_state request w = RESUME_SESSION →
  (session_token request, ts) ∈ _webio_expire w →
  sweep_due request w →
  (session_expire_seconds <= sweep_time request w - ts)%Q →
  let sid := session_token request in
  let r := view' target session_expire_seconds check_origin request w in
  ∃ h commands answer,
    _webio_sessions w !! sid = Some h ∧
    log r.2 = log w ++ pushed request h ++ [GetTaskCommands h commands; Closed h answer] ∧
    _webio_sessions r.2 !! sid = None ∧
    (answer = true → r.1 = inl (KeyError sid)) ∧
    (answer = false →
       ∃ response, r.1 = inr response ∧ body response = Json (JArr commands)).
Proof.
  intros Hp Hsorted Hc Hbody Hst Hin Hdue Hexp sid r. unfold r.
  rewrite view_dispatch, Hst.
  destruct (negotiated_checked _ _ Hc) as [hdrs ->].
  destruct (resume_state_registered _ _ Hst) as [h Hh]. fold sid in Hh, Hin |- *.
  rewrite Hh.
  destruct (session_end session_expire_seconds request sid h hdrs w Hbody Hp)
    as (commands & answer & wm & -> & _ & Hlog & Hclock & Hdicts & _).
  destruct Hdicts as [(Hnot & _)|(_ & Hswept & _)]; [done|].
  assert (Hgone : _webio_sessions wm !! sid = None).
  { rewrite Hswept, del_all_lookup, decide_True; [done|].
    apply list_elem_of_fmap. exists (sid, ts). split; [done|].
    pose proof (expired_fresh_split (clock wm) session_expire_seconds (_webio_expire w))
      as Hsplit.
    rewrite Hsplit in Hin. apply elem_of_app in Hin as [?|Hin]; [done|].
    pose proof (fresh_suffix_all (clock wm) session_expire_seconds _ Hsorted) as Hsuf.
    rewrite Forall_forall in Hsuf. apply Hsuf, is_expired_false in Hin.
    simpl in Hin. rewrite Hclock in Hin. exfalso. lra. }
  exists h, commands, answer. split; [done|]. rewrite Hgone.
  destruct answer; simpl.
  - split; [done|]. split; [done|]. split; [done|]. by intros [=].
  - split; [done|]. split; [done|]. split; [by intros [=]|]. intros _. by eexists.
Qed.

(** ** Session objects *)

Lemma view_session_registry_shrinks s request sid h hdrs w :
  paired w →
  let w' := (view_session' s request sid h hdrs w).2 in
  next_handle w' = next_handle w ∧
  ∀ k hk, _webio_sessions w' !! k = Some hk → _webio_sessions w !! k = Some hk.
Proof.
  intros Hp w'. unfold w'.
  destruct (decodes_or_raises request) as [Hbody|(e & Hm & He)];
    [|by rewrite (session_undecoded _ _ _ _ _ _ e)].
  destruct (session_end s request sid h hdrs w Hbody Hp)
    as (commands & answer & wm & -> & _ & _ & _ & Hdicts & Hnh & _).
  assert (Hwm : ∀ k hk, _webio_sessions wm !! k = Some hk →
                        _webio_sessions w !! k = Some hk).
  { intros k hk. destruct Hdicts as [(_ & -> & _)|(_ & -> & _)]; [done|].
    rewrite del_all_lookup. by destruct (decide (k ∈ _)). }
  destruct answer; [|done].
  destruct (_webio_sessions wm !! sid); [|done]. simpl. split; [done|].
  intros k hk Hk. apply Hwm. destruct (decide (k = sid)) as [->|Hne].
  - by rewrite lookup_delete_eq in Hk.
  - by rewrite lookup_delete_ne in Hk.
Qed.

Lemma handles_distinct_shrink w w' :
  handles_distinct w →
  next_handle w' = next_handle w →
  (∀ k hk, _webio_sessions w' !! k = Some hk → _webio_sessions w !! k = Some hk) →
  handles_distinct w'.
Proof.
  intros [Hlt Hinj] Hnh Hsub. split.
  - intros sid h Hs. rewrite Hnh. eapply Hlt, Hsub, Hs.
  - intros sid1 sid2 h H1 H2. eapply Hinj; by apply Hsub.
Qed.

Lemma created_handles_distinct target w :
  handles_distinct w → handles_distinct (created random_str_at target w).
Proof.
  intros [Hlt Hinj]. unfold handles_distinct, created. simpl.
  set (sid := random_str_at (draws w) 24). split.
  - intros k h. destruct (decide (sid = k)) as [->|Hne].
    + rewrite lookup_insert_eq. intros [= <-]. lia.
    + rewrite lookup_insert_ne by done. intros Hk%Hlt. lia.
  - intros k1 k2 h.
    destruct (decide (sid = k1)) as [<-|Hne1], (decide (sid = k2)) as [<-|Hne2];
      rewrite ?lookup_insert_eq, ?lookup_insert_ne by done; try done.
    + intros [= <-] Hk%Hlt. lia.
    + intros Hk%Hlt [= <-]. lia.
    + apply Hinj.
Qed.

Lemma view_handles_distinct target s check_origin request w :
  paired w → handles_distinct w →
  handles_distinct (view' target s check_origin request w).2.
Proof.
  intros Hp Hd. rewrite view_dispatch.
  destruct (dispatch_state request w).
  - by destruct (cors_headers _ _ _).
  - by destruct (negotiated _ _).
  - destruct (negotiated _ _); [done|].
    destruct (view_session_registry_shrinks s request
                (random_str_at (draws w) 24) (next_handle w)
                (<["webio-session-id" := HStr (random_str_at (draws w) 24)]> g)
                (created random_str_at target w) (created_paired _ target w Hp))
      as [Hnh Hsub].
    eapply handles_distinct_shrink; [by apply created_handles_distinct|done|done].
  - by destruct (negotiated _ _).
  - destruct (negotiated _ _); [done|].
    destruct (_webio_sessions w !! session_token request) as [h|]; [|done].
    destruct (view_session_registry_shrinks s request (session_token request) h g w Hp)
      as [Hnh Hsub].
    by eapply handles_distinct_shrink.
Qed.

(** X14. One session object per token: from the freshly imported module and
    after any sequence of requests served one at a time, no two tokens of
    the Registry are bound to the same session object, since every
    NEW_SESSION request constructs its own; and every registered object is
    one that was constructed. *)
Theorem one_session_object_per_token target session_expire_seconds check_origin
    (requests : list (Q * Request)) (start : Q) :
  handles_distinct (serve_all (view' target session_expire_seconds check_origin)
                      requests (initial_world start)).
Proof.
  assert (Hgen : ∀ w, paired w → handles_distinct w →
    handles_distinct (serve_all (view' target session_expire_seconds check_origin)
                        requests w)).
  { induction requests as [|[arrival request] rest IH]; intros w Hp Hd; [done|].
    simpl. apply IH; unfold serve.
    - by apply view_paired.
    - by apply view_handles_distinct. }
  apply Hgen; [exact paired_dicts_empty|].
  split; simpl; intros *; by rewrite lookup_empty.
Qed.

Lemma serve_all_paired target s check_origin (requests : list (Q * Request)) w :
  paired w → paired (serve_all (view' target s check_origin) requests w).
Proof.
  revert w. induction requests as [|[arrival request] rest IH]; intros w Hp; [done|].
  simpl. apply IH. unfold serve. by apply view_paired.
Qed.

(** X15. The generated token is not checked against the Registry: when it
    is already registered, in a world whose Registry and tracker are paired
    and whose registered session objects are held by one token each (C8 and
    X14: every world the view reaches), a NEW_SESSION request whose origin predicate
    returns takes the token over, and the session object that held it is
    bound to no token any more, so no request can reach it again.  If
    moreover the body of the request decodes and the new session does not
    report closed, then, unless the sweep of this request is due with a
    threshold that the time spent in the request has reached, the token is
    bound to the new object and its single record is the last of the
    tracker, with the time of the request. *)
Theorem new_session_takes_over_registered_token target session_expire_seconds
    check_origin request w h_old :
  paired w →
  handles_distinct w →
  origin_checked check_origin request →
  dispatch_state request w = NEW_SESSION →
  _webio_sessions w !! random_str_at (draws w) 24 = Some h_old →
  let sid := random_str_at (draws w) 24 in
  let h := next_handle w in
  let w' := (view' target session_expire_seconds check_origin request w).2 in
  h ≠ h_old ∧
  (∀ k, _webio_sessions w' !! k ≠ Some h_old) ∧
  (body_decodes request →
   ∃ commands answer,
     log w' = log w ++ [NewSession h target] ++ pushed request h ++
              [GetTaskCommands h commands; Closed h answer] ∧
     (answer = false →
      (sweep_due request w →
         (sweep_time request w - clock w < session_expire_seconds)%Q) →
      _webio_sessions w' !! sid = Some h ∧
      ∃ older, _webio_expire w' = older ++ [(sid, clock w)] ∧ (sid ∉ older.*1))).
Proof.
  intros Hp Hd Hc Hst Hold sid h w'.
  assert (Hlt : h_old < h) by (by apply Hd in Hold).
  split; [lia|]. unfold w'. rewrite view_dispatch, Hst.
  destruct (negotiated_checked _ _ Hc) as [hdrs ->]. split.
  - intros k Hk.
    destruct (view_session_registry_shrinks session_expire_seconds request sid h
                (<["webio-session-id" := HStr sid]> hdrs)
                (created random_str_at target w) (created_paired _ target w Hp))
      as [_ Hsub].
    apply Hsub in Hk. simpl in Hk. fold sid in Hk.
    destruct (decide (sid = k)) as [<-|Hne].
    + rewrite lookup_insert_eq in Hk. injection Hk as Hk. fold h in Hk. lia.
    + rewrite lookup_insert_ne in Hk by done.
      destruct Hd as [_ Hinj]. by specialize (Hinj _ _ _ Hold Hk).
  - intros Hbody.
    destruct (created_session_end random_str_at session_commands session_closed
                session_expire_seconds request
                (<["webio-session-id" := HStr sid]> hdrs) target w Hbody Hp)
      as (commands & answer & wm & Heq & _ & Hlog & _ & Hkept).
    fold sid h in Heq, Hlog, Hkept |- *. rewrite Heq.
    exists commands, answer. destruct answer.
    + split; [by destruct (_webio_sessions wm !! sid)|]. by intros [=].
    + split; [done|]. intros _ Hcond.
      destruct (Hkept Hcond) as (Hh & older & Hexp & Hnin & _).
      split; [done|]. by exists older.
Qed.

Lemma serve_all_handles_distinct target s check_origin (requests : list (Q * Request)) w :
  paired w → handles_distinct w →
  handles_distinct (serve_all (view' target s check_origin) requests w).
Proof.
  revert w. induction requests as [|[arrival request] rest IH]; intros w Hp Hd; [done|].
  simpl. apply IH; unfold serve.
  - by apply view_paired.
  - by apply view_handles_distinct.
Qed.

Lemma initial_handles_distinct start : handles_distinct (initial_world (Target := Target) start).
Proof. split; simpl; intros *; by rewrite lookup_empty. Qed.

Lemma paired_with_clock t w : paired w → paired (with_clock t w).
Proof. done. Qed.

End Further.

(** * The further properties at work on the deployment *)

Lemma two_sessions_paired : paired two_sessions_at_70.
Proof.
  unfold two_sessions_at_70, demo_view. apply paired_with_clock.
  exact (serve_all_paired demo_random_str_at no_commands never_closed "task"
           DEFAULT_SESSION_EXPIRE_SECONDS allow_all _ at_import paired_dicts_empty).
Qed.

Lemma one_session_paired : paired one_session_at_100.
Proof.
  unfold one_session_at_100, demo_view. apply paired_with_clock.
  exact (serve_all_paired demo_random_str_at no_commands (closed_from 90) "task"
           DEFAULT_SESSION_EXPIRE_SECONDS allow_all _ at_import paired_dicts_empty).
Qed.

Lemma token_taken_paired : paired token_taken.
Proof.
  unfold token_taken, repeating_view.
  exact (serve_all_paired always_T1 no_commands never_closed "task"
           DEFAULT_SESSION_EXPIRE_SECONDS allow_all _ at_import paired_dicts_empty).
Qed.

Lemma token_taken_handles_distinct : handles_distinct token_taken.
Proof.
  unfold token_taken, repeating_view.
  exact (serve_all_handles_distinct always_T1 no_commands never_closed "task"
           DEFAULT_SESSION_EXPIRE_SECONDS allow_all _ at_import paired_dicts_empty
           (initial_handles_distinct 0)).
Qed.

Lemma preflight_touches_nothing_witness :
  _webio_view demo_random_str_at no_commands never_closed "task" 60
      (λ o, inr (approve_example o)) preflight at_import =
    (inr (mkResponse (Text "") 204
            (if approve_example (origin_of preflight)
             then cors_grant (origin_of preflight) else ∅)),
     at_import).
Proof.
  apply (preflight_touches_nothing demo_random_str_at no_commands never_closed
           "task" 60 approve_example preflight at_import).
  reflexivity.
Defined.

Lemma probe_touches_nothing_witness :
  _webio_view demo_random_str_at no_commands never_closed "task" 60
      (λ o, inr (approve_example o)) probe at_import =
    (inr (mkResponse (Text "ok") 200
            (if truthy (request_headers probe !! "Origin") && approve_example (origin_of probe)
             then cors_grant (origin_of probe) else ∅)),
     at_import).
Proof.
  apply (probe_touches_nothing demo_random_str_at no_commands never_closed
           "task" 60 approve_example probe at_import).
  - vm_compute. discriminate.
  - reflexivity.
Defined.

Lemma rejected_origin_served_as_same_origin_witness :
  demo_view never_closed example_origins from_evil at_import =
  demo_view never_closed example_origins (without_origin from_evil) at_import.
Proof.
  unfold demo_view.
  apply (rejected_origin_served_as_same_origin demo_random_str_at no_commands never_closed
           "task" DEFAULT_SESSION_EXPIRE_SECONDS example_origins from_evil at_import).
  - vm_compute. discriminate.
  - reflexivity.
Defined.

Lemma sweep_spares_fresh_records_witness :
  ∃ w',
    _remove_expired_sessions 60 two_sessions_at_70 = (inr tt, w') ∧
    (T2, 50%Q) ∈ _webio_expire w' ∧
    _webio_sessions w' !! T2 = _webio_sessions two_sessions_at_70 !! T2.
Proof.
  destruct (sweep_spares_fresh_records 60 two_sessions_at_70)
    as (w' & Heq & _ & Hfresh & _).
  - apply two_sessions_paired.
  - intros sid. apply paired_tracked, two_sessions_paired.
  - exists w'. split; [exact Heq|].
    apply (Hfresh T2 50%Q); [vm_compute; right; left|reflexivity].
Defined.

Lemma sweep_twice_is_sweep_once_witness :
  ∃ w',
    _remove_expired_sessions 60 two_sessions_at_70 = (inr tt, w') ∧
    _remove_expired_sessions 60 w' = (inr tt, w').
Proof.
  apply (sweep_twice_is_sweep_once 60 two_sessions_at_70).
  - apply two_sessions_paired.
  - intros sid. apply paired_tracked, two_sessions_paired.
Defined.

Lemma sweep_stops_at_fresh_head_witness :
  _remove_expired_sessions 20 (with_clock 55 (with_expire [(T2, 50%Q); (T1, 0%Q)]
                                                two_sessions_at_70)) =
    (inr tt, with_clock 55 (with_expire [(T2, 50%Q); (T1, 0%Q)] two_sessions_at_70)).
Proof.
  apply (sweep_stops_at_fresh_head 20 _ T2 50%Q [(T1, 0%Q)]).
  - vm_compute. apply NoDup_cons. split; [|apply NoDup_singleton].
    intros Hin. apply list_elem_of_singleton in Hin. discriminate.
  - reflexivity.
  - reflexivity.
Defined.

Lemma sweep_raises_on_expired_record_without_handle_witness :
  (_remove_expired_sessions 60 two_sessions_at_70).1 = inr tt ↔
  ∀ sid, sid ∈ (expired_prefix (clock two_sessions_at_70) 60
                  (_webio_expire two_sessions_at_70)).*1 →
         is_Some (_webio_sessions two_sessions_at_70 !! sid).
Proof.
  apply (sweep_raises_on_expired_record_without_handle 60 two_sessions_at_70).
  apply two_sessions_paired.
Defined.

Lemma remove_deletes_the_pair_once_witness :
  ∃ w', _remove_webio_session T1 two_sessions_at_70 = (inr tt, w') ∧
        _remove_webio_session T1 w' = (inl (KeyError T1), w').
Proof.
  destruct (remove_deletes_the_pair_once T1 two_sessions_at_70) as (_ & Hpresent & _).
  destruct Hpresent as (w' & Heq & _ & _ & _ & _ & Hagain).
  - by eexists.
  - vm_compute. left.
  - by exists w'.
Defined.

Lemma tracker_written_only_at_creation_witness :
  _webio_expire (demo_view never_closed allow_all resume_T1 two_sessions_at_70).2
    `sublist_of` _webio_expire two_sessions_at_70.
Proof.
  pose proof (tracker_written_only_at_creation demo_random_str_at no_commands
                never_closed "task" DEFAULT_SESSION_EXPIRE_SECONDS allow_all
                resume_T1 two_sessions_at_70 two_sessions_paired) as H.
  cbv zeta in H. destruct H as [H _]. apply H. vm_compute. discriminate.
Defined.

Lemma others_evicted_only_when_expired_witness :
  let w' := (demo_view never_closed allow_all resume_T1 two_sessions_at_70).2 in
  _webio_sessions w' !! T2 = Some 1 ∨
  (∃ ts, (T2, ts) ∈ _webio_expire two_sessions_at_70 ∧
         (DEFAULT_SESSION_EXPIRE_SECONDS <= clock w' - ts)%Q ∧
         (REMOVE_EXPIRED_SESSIONS_INTERVAL <
            clock w' - _last_check_session_expire_ts two_sessions_at_70)%Q ∧
         _webio_sessions w' !! T2 = None).
Proof.
  apply (others_evicted_only_when_expired demo_random_str_at no_commands
           never_closed "task" DEFAULT_SESSION_EXPIRE_SECONDS allow_all
           resume_T1 two_sessions_at_70 T2 1 two_sessions_paired).
  - vm_compute. discriminate.
  - vm_compute. discriminate.
  - reflexivity.
Defined.


Lemma session_response_content_witness :
  ∃ h before commands answer,
    log (_webio_view demo_random_str_at no_commands never_closed "task" 60
           (λ o, inr (approve_example o)) resume_T1 two_sessions_at_70).2 =
      log two_sessions_at_70 ++ before ++ pushed resume_T1 h ++
      [GetTaskCommands h commands; Closed h answer].
Proof.
  destruct (session_response_content demo_random_str_at no_commands never_closed
              "task" 60 approve_example resume_T1 two_sessions_at_70
              two_sessions_paired) as (h & before & commands & answer & Hlog & _).
  - right. reflexivity.
  - exists h, before, commands, answer. apply Hlog.
    intros Hpost. vm_compute in Hpost. discriminate.
Defined.

Lemma evicted_session_is_served_once_more_witness :
  ∃ h,
    _webio_sessions one_session_at_100 !! T1 = Some h ∧
    _webio_sessions
      (demo_view (closed_from 90) allow_all resume_T1 one_session_at_100).2 !! T1 = None.
Proof.
  pose proof (evicted_session_is_served_once_more demo_random_str_at no_commands
                (closed_from 90) "task" DEFAULT_SESSION_EXPIRE_SECONDS allow_all
                resume_T1 one_session_at_100 0%Q one_session_paired) as H.
  cbv zeta in H. destruct H as (h & commands & answer & Hh & _ & Hgone & _).
  - vm_compute. repeat constructor.
  - intros Horigin. vm_compute in Horigin. discriminate.
  - intros Hpost. vm_compute in Hpost. discriminate.
  - reflexivity.
  - vm_compute. left.
  - reflexivity.
  - vm_compute. discriminate.
  - exists h. split; [exact Hh|exact Hgone].
Defined.

Lemma new_session_takes_over_registered_token_witness :
  next_handle token_taken ≠ 0 ∧
  _webio_sessions (repeating_view (demo_request "GET" None None) token_taken).2 !! T1
    ≠ Some 0.
Proof.
  pose proof (new_session_takes_over_registered_token always_T1 no_commands
                never_closed "task" DEFAULT_SESSION_EXPIRE_SECONDS allow_all
                (demo_request "GET" None None) token_taken 0
                token_taken_paired token_taken_handles_distinct) as H.
  cbv zeta in H. destruct H as (Hnew & Hgone & _).
  - intros Horigin. vm_compute in Horigin. discriminate.
  - reflexivity.
  - reflexivity.
  - split; [exact Hnew|exact (Hgone T1)].
Defined.
